(** * treeamps-core: tensor-structure generator

    Shallow embedding of [treeamps-core/src] (types.rs, dot_product.rs,
    tensor_structure.rs, generator.rs).

    Integer conventions:
    - [u8] leg indices and [n_legs] are [nat] (values 0..255);
    - [u32] counters are [N].
    Rust integer overflow panics in the default (debug) profile. A panic is
    modelled as [None] at the two places where a [u32]/[u8] input can
    actually make the arithmetic overflow:
    - [(i + 1)] on a [u8] in [generate_valid_factors] when [i = 255];
    - [remain * 2] on a [u32] in [dfs_emit].
    Every other counter stays far below its bound: a counter is at most the
    current depth, which is below [target_deg]. Those counters are plain [N]. *)

From Stdlib Require Import List Arith Lia NArith Bool.
From Stdlib Require Import Sorting.Sorted Sorting.Permutation.
From Stdlib Require Ascii String.
Import ListNotations.

Notation "'let?' x ':=' c 'in' k" :=
  (match c with Some x => k | None => None end)
  (at level 200, x name, c at level 100, k at level 200).

(** ** types.rs *)

Inductive ScalarKind := PP | PE | EE.

Module Transversality.
Inductive t := None | ForbidPiDotEi.
End Transversality.

Inductive PolarizationPattern := Unrestricted | OnePerLeg.

(** [LegIndex(pub u8)] *)
Definition LegIndex := nat.

(** ** Rust's [Ord] trait: [cmp] and the laws of a total order *)

Class Ord (A : Type) := cmp : A -> A -> comparison.

Class OrdLaws (A : Type) `{Ord A} := {
  cmp_eq_iff : forall x y, cmp x y = Eq <-> x = y;
  cmp_antisym : forall x y, cmp y x = CompOpp (cmp x y);
  cmp_lt_trans : forall x y z, cmp x y = Lt -> cmp y z = Lt -> cmp x z = Lt
}.

(** [#[derive(Ord)]] on [ScalarKind]: declaration order PP < PE < EE. *)
Definition kind_rank (k : ScalarKind) : nat :=
  match k with PP => 0 | PE => 1 | EE => 2 end.

#[export] Instance Ord_ScalarKind : Ord ScalarKind :=
  fun k1 k2 => Nat.compare (kind_rank k1) (kind_rank k2).

#[export] Instance Ord_nat : Ord nat := Nat.compare.

(** ** dot_product.rs *)

Record ScalarFactor := mkSF { kind : ScalarKind; a : LegIndex; b : LegIndex }.

Definition sf_pp (i j : LegIndex) : ScalarFactor := mkSF PP i j.
Definition sf_pe (i j : LegIndex) : ScalarFactor := mkSF PE i j.
Definition sf_ee (i j : LegIndex) : ScalarFactor := mkSF EE i j.

(** [impl Ord for ScalarFactor]: kind, then [a], then [b]. *)
#[export] Instance Ord_ScalarFactor : Ord ScalarFactor :=
  fun x y =>
    match cmp (kind x) (kind y) with
    | Eq => match cmp (a x) (a y) with
            | Eq => cmp (b x) (b y)
            | non_eq => non_eq
            end
    | non_eq => non_eq
    end.

(** [Ord for Vec<T>] / slices: lexicographic, a proper prefix is smaller. *)
Fixpoint list_cmp {A} `{Ord A} (l1 l2 : list A) : comparison :=
  match l1, l2 with
  | [], [] => Eq
  | [], _ :: _ => Lt
  | _ :: _, [] => Gt
  | x :: l1', y :: l2' =>
      match cmp x y with
      | Eq => list_cmp l1' l2'
      | non_eq => non_eq
      end
  end.

#[export] Instance Ord_list {A} `{Ord A} : Ord (list A) := list_cmp.

(** [slice::sort] (stable) as a stable insertion sort: an element goes after
    every element that is not greater than it. *)
Section Sort.
Context {A : Type} `{Ord A}.

Fixpoint insert_sorted (x : A) (l : list A) : list A :=
  match l with
  | [] => [x]
  | y :: l' =>
      match cmp x y with
      | Lt => x :: l
      | _ => y :: insert_sorted x l'
      end
  end.

Definition sort (l : list A) : list A :=
  fold_left (fun acc x => insert_sorted x acc) l [].
End Sort.

(** ** tensor_structure.rs *)

Record TensorStructure := mkTS {
  factors : list ScalarFactor;
  ee_contractions : N
}.

Definition TensorStructure_new : TensorStructure := mkTS [] 0.

Definition canonicalize (t : TensorStructure) : TensorStructure :=
  mkTS (sort (factors t)) (ee_contractions t).

(** [impl Ord for TensorStructure]: compares the factor sequences only. *)
#[export] Instance Ord_TensorStructure : Ord TensorStructure :=
  fun t u => cmp (factors t) (factors u).

(** [BTreeSet<TensorStructure>] as its sorted contents. [insert] keeps the
    stored element when an element comparing [Equal] is already present. *)
Fixpoint set_insert (t : TensorStructure) (s : list TensorStructure)
  : list TensorStructure :=
  match s with
  | [] => [t]
  | u :: s' =>
      match cmp t u with
      | Lt => t :: s
      | Eq => s
      | Gt => u :: set_insert t s'
      end
  end.

(** ** generator.rs: catalog *)

Record GenConfig := mkCfg {
  n_legs : nat;
  transversality : Transversality.t;
  pol_pattern : PolarizationPattern
}.

Definition GenConfig_default : GenConfig :=
  mkCfg 3 Transversality.ForbidPiDotEi OnePerLeg.

(** [lo..=hi] *)
Definition range_incl (lo hi : nat) : list nat := seq lo (S hi - lo).

(** [i + 1] on [u8]: panics on overflow. *)
Definition u8_add1 (i : nat) : option nat :=
  if i <? 255 then Some (S i) else None.

(** Inner loop of the PP block: [for j in (i+1)..=n]. *)
Definition pp_row (n i j0 : nat) (acc : list ScalarFactor) : list ScalarFactor :=
  fold_left
    (fun acc j => if (i =? n) || (j =? n) then acc else acc ++ [sf_pp i j])
    (range_incl j0 n) acc.

Fixpoint pp_rows (n : nat) (is : list nat) (acc : list ScalarFactor)
  : option (list ScalarFactor) :=
  match is with
  | [] => Some acc
  | i :: is' =>
      let? j0 := u8_add1 i in
      pp_rows n is' (pp_row n i j0 acc)
  end.

Definition forbids_self_dot (t : Transversality.t) : bool :=
  match t with Transversality.ForbidPiDotEi => true | Transversality.None => false end.

Definition pe_row (tr : Transversality.t) (n i : nat) (acc : list ScalarFactor)
  : list ScalarFactor :=
  fold_left
    (fun acc j =>
       if forbids_self_dot tr && (i =? j) then acc
       else if (j =? n) && (i =? 1) then acc
       else acc ++ [sf_pe i j])
    (range_incl 1 n) acc.

Definition pe_rows (tr : Transversality.t) (n : nat) (acc : list ScalarFactor)
  : list ScalarFactor :=
  fold_left (fun acc i => if i =? n then acc else pe_row tr n i acc)
    (range_incl 1 n) acc.

Definition ee_row (n i j0 : nat) (acc : list ScalarFactor) : list ScalarFactor :=
  fold_left (fun acc j => acc ++ [sf_ee i j]) (range_incl j0 n) acc.

Fixpoint ee_rows (n : nat) (is : list nat) (acc : list ScalarFactor)
  : option (list ScalarFactor) :=
  match is with
  | [] => Some acc
  | i :: is' =>
      let? j0 := u8_add1 i in
      ee_rows n is' (ee_row n i j0 acc)
  end.

Definition generate_valid_factors (cfg : GenConfig)
  : option (list ScalarFactor * list ScalarFactor * list ScalarFactor) :=
  let n := n_legs cfg in
  let? pp := pp_rows n (range_incl 1 n) [] in
  let pe := pe_rows (transversality cfg) n [] in
  let? ee := ee_rows n (range_incl 1 n) [] in
  Some (sort pp, sort pe, sort ee).

(** ** generator.rs: search *)

Record DfsState := mkState {
  target_deg : N;
  ee_needed : N;
  nlegs : nat;
  enforce_one_pol : bool;
  catalog : list ScalarFactor;
  cur : TensorStructure;
  pe_so_far : N;
  pol_count : list N
}.

(** [pc[k] += 1]: indexing out of bounds panics. *)
Fixpoint list_set {A} (l : list A) (k : nat) (v : A) : list A :=
  match l, k with
  | [], _ => []
  | _ :: l', O => v :: l'
  | x :: l', S k' => x :: list_set l' k' v
  end.

Definition pc_incr (pc : list N) (k : nat) : option (list N) :=
  if k <? length pc then Some (list_set pc k (nth k pc 0%N + 1)%N) else None.

Definition add_polarizations (pc : list N) (f : ScalarFactor) : option (list N) :=
  match kind f with
  | PE => pc_incr pc (b f)
  | EE => let? pc1 := pc_incr pc (a f) in pc_incr pc1 (b f)
  | PP => Some pc
  end.

Definition is_ee (f : ScalarFactor) : bool :=
  match kind f with EE => true | _ => false end.
Definition is_pe (f : ScalarFactor) : bool :=
  match kind f with PE => true | _ => false end.

(** The updates made before the recursive call in the body of the loop of
    [dfs_emit]: push the factor, bump the EE count, and (one-pol-per-leg
    only) bump the PE count and the polarization counters. The source undoes
    exactly these updates after the call returns, so the loop carries on
    from the unchanged state: the child receives the extended state as a
    value and the loop keeps the parent state. *)
Definition extend (s : DfsState) (f : ScalarFactor) : option DfsState :=
  let c := cur s in
  let cur' := mkTS (factors c ++ [f])
                   (if is_ee f then ee_contractions c + 1 else ee_contractions c)%N in
  if enforce_one_pol s then
    let? pc := add_polarizations (pol_count s) f in
    Some (mkState (target_deg s) (ee_needed s) (nlegs s) true (catalog s) cur'
                  (if is_pe f then pe_so_far s + 1 else pe_so_far s)%N pc)
  else
    Some (mkState (target_deg s) (ee_needed s) (nlegs s) false (catalog s) cur'
                  (pe_so_far s) (pol_count s)).

Definition deg_so_far (s : DfsState) : N := N.of_nat (length (factors (cur s))).
Definition ee_so_far (s : DfsState) : N := ee_contractions (cur s).

Definition u32_max : N := 4294967295.

Inductive Prune := Proceed | Abandon | Panic.

(** The three one-pol-per-leg prunes. *)
Definition one_pol_prunes (s : DfsState) : Prune :=
  if existsb (fun r => 1 <? nth r (pol_count s) 0)%N (range_incl 1 (nlegs s))
  then Abandon
  else
    let remain := (target_deg s - deg_so_far s)%N in
    let missing :=
      N.of_nat (length (filter (fun r => nth r (pol_count s) 0 =? 0)%N
                               (range_incl 1 (nlegs s)))) in
    if (u32_max <? remain * 2)%N then Panic
    else if (remain * 2 <? missing)%N then Abandon
    else if (N.of_nat (nlegs s) <? 2 * ee_so_far s + pe_so_far s)%N then Abandon
    else Proceed.

(** The leaf test, once [deg_so_far = target_deg]. *)
Definition leaf_accepts (s : DfsState) : bool :=
  (ee_so_far s =? ee_needed s)%N &&
  (if negb (enforce_one_pol s) then true
   else (2 * ee_so_far s + pe_so_far s =? N.of_nat (nlegs s))%N &&
        forallb (fun r => nth r (pol_count s) 0 =? 1)%N (range_incl 1 (nlegs s))).

(** [for i in idx_start..catalog.len()]: [rest] is [catalog[i..]]; [rec] is
    the recursive call of [dfs_emit]. *)
Fixpoint emit_loop (rec : DfsState -> nat -> list TensorStructure -> option (list TensorStructure))
    (s : DfsState) (i : nat) (rest : list ScalarFactor) (out : list TensorStructure)
  : option (list TensorStructure) :=
  match rest with
  | [] => Some out
  | f :: rest' =>
      let? s' := extend s f in
      let? out' := rec s' i out in
      emit_loop rec s (S i) rest' out'
  end.

(** [dfs_emit]. The recursion is on [fuel]; [generate_tensor_structures]
    passes [target_degree + 1], more than the depth the search reaches. *)
Fixpoint dfs_emit (fuel : nat) (s : DfsState) (idx_start : nat) (out : list TensorStructure)
  : option (list TensorStructure) :=
  match fuel with
  | O => Some out
  | S fuel' =>
      if (target_deg s <? deg_so_far s)%N || (ee_needed s <? ee_so_far s)%N then Some out
      else
        match (if enforce_one_pol s then one_pol_prunes s else Proceed) with
        | Panic => None
        | Abandon => Some out
        | Proceed =>
            if (deg_so_far s =? target_deg s)%N then
              Some (if leaf_accepts s then set_insert (canonicalize (cur s)) out else out)
            else emit_loop (dfs_emit fuel') s idx_start (skipn idx_start (catalog s)) out
        end
  end.

Definition initial_state (cfg : GenConfig) (target_degree ee_contractions : N)
    (catalog : list ScalarFactor) : DfsState :=
  mkState target_degree ee_contractions (n_legs cfg)
    (match pol_pattern cfg with OnePerLeg => true | Unrestricted => false end)
    catalog TensorStructure_new 0 (repeat 0%N (n_legs cfg + 1)).

Definition generate_tensor_structures (cfg : GenConfig) (target_degree ee_contractions : N)
  : option (list TensorStructure) :=
  if (target_degree =? 0)%N then Some []
  else if (target_degree <? ee_contractions)%N then Some []
  else
    let? cats := generate_valid_factors cfg in
    let '(pp, pe, ee) := cats in
    let catalog := pp ++ pe ++ ee in
    dfs_emit (S (N.to_nat target_degree))
      (initial_state cfg target_degree ee_contractions catalog) 0 [].

(** ** Spec-side alternative: collect, then sort and deduplicate once *)

Definition ScalarKind_eq_dec (x y : ScalarKind) : {x = y} + {x <> y}.
Proof. decide equality. Defined.

Definition ScalarFactor_eq_dec (x y : ScalarFactor) : {x = y} + {x <> y}.
Proof. decide equality; first [apply Nat.eq_dec | apply ScalarKind_eq_dec]. Defined.

Definition TensorStructure_eq_dec (x y : TensorStructure) : {x = y} + {x <> y}.
Proof. decide equality; [apply N.eq_dec | apply (list_eq_dec ScalarFactor_eq_dec)]. Defined.

(** [Vec::dedup]: removes consecutive repeated elements ([PartialEq]). *)
Fixpoint dedup (l : list TensorStructure) : list TensorStructure :=
  match l with
  | [] => []
  | x :: l' =>
      match l' with
      | y :: _ => if TensorStructure_eq_dec x y then dedup l' else x :: dedup l'
      | [] => [x]
      end
  end.

Definition sort_dedup (l : list TensorStructure) : list TensorStructure :=
  dedup (sort l).

(** [dfs_emit] with [out.insert(t)] replaced by pushing the accepted leaf to
    a vector: the accepted leaf states, in the order of the search. *)
Fixpoint collect_loop (rec : DfsState -> nat -> option (list DfsState))
    (s : DfsState) (i : nat) (rest : list ScalarFactor) : option (list DfsState) :=
  match rest with
  | [] => Some []
  | f :: rest' =>
      let? s' := extend s f in
      let? l1 := rec s' i in
      let? l2 := collect_loop rec s (S i) rest' in
      Some (l1 ++ l2)
  end.

Fixpoint dfs_collect (fuel : nat) (s : DfsState) (idx_start : nat) : option (list DfsState) :=
  match fuel with
  | O => Some []
  | S fuel' =>
      if (target_deg s <? deg_so_far s)%N || (ee_needed s <? ee_so_far s)%N then Some []
      else
        match (if enforce_one_pol s then one_pol_prunes s else Proceed) with
        | Panic => None
        | Abandon => Some []
        | Proceed =>
            if (deg_so_far s =? target_deg s)%N then
              Some (if leaf_accepts s then [s] else [])
            else collect_loop (dfs_collect fuel') s idx_start (skipn idx_start (catalog s))
        end
  end.

Definition generate_collect_then_sort (cfg : GenConfig) (target_degree ee_contractions : N)
  : option (list TensorStructure) :=
  if (target_degree =? 0)%N then Some []
  else if (target_degree <? ee_contractions)%N then Some []
  else
    let? cats := generate_valid_factors cfg in
    let '(pp, pe, ee) := cats in
    let catalog := pp ++ pe ++ ee in
    let? leaves := dfs_collect (S (N.to_nat target_degree))
                     (initial_state cfg target_degree ee_contractions catalog) 0 in
    Some (sort_dedup (map (fun s => canonicalize (cur s)) leaves)).

(** The number of accepted leaves of the search. *)
Definition leaf_acceptances (cfg : GenConfig) (target_degree ee_contractions : N)
  : option nat :=
  if (target_degree =? 0)%N then Some 0
  else if (target_degree <? ee_contractions)%N then Some 0
  else
    let? cats := generate_valid_factors cfg in
    let '(pp, pe, ee) := cats in
    let? leaves := dfs_collect (S (N.to_nat target_degree))
                     (initial_state cfg target_degree ee_contractions (pp ++ pe ++ ee)) 0 in
    Some (length leaves).

(** Polarization occurrences of leg [r] in a factor list. *)
Definition touches (r : nat) (fs : list ScalarFactor) : nat :=
  fold_right (fun f n =>
    match kind f with
    | PP => n
    | PE => (if b f =? r then 1 else 0) + n
    | EE => (if a f =? r then 1 else 0) + (if b f =? r then 1 else 0) + n
    end) 0 fs.

Definition count_ee (fs : list ScalarFactor) : nat := length (filter is_ee fs).
Definition count_pe (fs : list ScalarFactor) : nat := length (filter is_pe fs).

(** Factors chosen by a sequence of catalog indices, from state [s]. *)
Fixpoint extend_path (s : DfsState) (q : list nat) : option DfsState :=
  match q with
  | [] => Some s
  | k :: q' =>
      let? s' := extend s (nth k (catalog s) (sf_pp 0 0)) in
      extend_path s' q'
  end.

(** ** generator.rs: [count_valid_factors] *)

Record CatalogCounts := mkCounts { num_pp : nat; num_pe : nat; num_ee : nat }.

Definition count_valid_factors (cfg : GenConfig) : option CatalogCounts :=
  match generate_valid_factors cfg with
  | Some (pp, pe, ee) => Some (mkCounts (length pp) (length pe) (length ee))
  | None => None
  end.

(** ** generator.rs: the undo steps of the loop of [dfs_emit] *)

(** [pc[k] -= 1]: out of bounds and [u32] underflow panic. *)
Definition pc_decr (pc : list N) (k : nat) : option (list N) :=
  if k <? length pc then
    if (nth k pc 0 =? 0)%N then None else Some (list_set pc k (nth k pc 0%N - 1)%N)
  else None.

Definition remove_polarizations (pc : list N) (f : ScalarFactor) : option (list N) :=
  match kind f with
  | PE => pc_decr pc (b f)
  | EE => let? pc1 := pc_decr pc (a f) in pc_decr pc1 (b f)
  | PP => Some pc
  end.

(** [x -= 1] on a [u32]. *)
Definition u32_decr (x : N) : option N := if (x =? 0)%N then None else Some (x - 1)%N.

(** The statements after the recursive call: (one-pol-per-leg only) remove
    the polarizations and decrement the PE count, then decrement the EE
    count and pop the factor ([Vec::pop] on an empty vector does nothing). *)
Definition undo (s : DfsState) (f : ScalarFactor) : option DfsState :=
  let? pc_pe :=
    if enforce_one_pol s then
      let? pc := remove_polarizations (pol_count s) f in
      let? pe := (if is_pe f then u32_decr (pe_so_far s) else Some (pe_so_far s)) in
      Some (pc, pe)
    else Some (pol_count s, pe_so_far s) in
  let c := cur s in
  let? ee := (if is_ee f then u32_decr (ee_contractions c) else Some (ee_contractions c)) in
  Some (mkState (target_deg s) (ee_needed s) (nlegs s) (enforce_one_pol s) (catalog s)
          (mkTS (removelast (factors c)) ee) (snd pc_pe) (fst pc_pe)).

(** ** [to_string] of dot_product.rs and tensor_structure.rs

    Rust strings are UTF-8: a [String.string] here is the byte sequence.
    The middle dot U+00B7 is the two bytes 194 183; the separator of
    [TensorStructure::to_string] in the source is the five bytes
    32 195 130 194 183 32 (a space, "A-circumflex", the middle dot, a space). *)

Definition byte_str (l : list nat) : String.string :=
  fold_right (fun c s => String.String (Ascii.ascii_of_nat c) s) String.EmptyString l.

Definition middot : String.string := byte_str [194; 183].

Definition ts_separator : String.string := byte_str [32; 195; 130; 194; 183; 32].

(** [{}] of an unsigned integer: its decimal digits, no leading zero. *)
Fixpoint dec_aux (fuel n : nat) (acc : String.string) : String.string :=
  match fuel with
  | O => acc
  | S fuel' =>
      if n <? 10 then String.String (Ascii.ascii_of_nat (48 + n)) acc
      else dec_aux fuel' (n / 10) (String.String (Ascii.ascii_of_nat (48 + n mod 10)) acc)
  end.

Definition dec (n : nat) : String.string := dec_aux (S n) n String.EmptyString.

(** [format!("(p{}\u{b7}e{})", a, b)] (middle dot) and the like: bytes 40 "(", 41 ")",
    112 "p", 101 "e". *)
Definition ScalarFactor_to_string (f : ScalarFactor) : String.string :=
  let letters :=
    match kind f with PP => (112, 112) | PE => (112, 101) | EE => (101, 101) end in
  String.append (byte_str [40; fst letters])
    (String.append (dec (a f))
      (String.append middot
        (String.append (byte_str [snd letters])
          (String.append (dec (b f)) (byte_str [41]))))).

(** [Vec::join] *)
Fixpoint join (sep : String.string) (l : list String.string) : String.string :=
  match l with
  | [] => String.EmptyString
  | [x] => x
  | x :: l' => String.append x (String.append sep (join sep l'))
  end.

Definition TensorStructure_to_string (t : TensorStructure) : String.string :=
  match factors t with
  | [] => byte_str [49]
  | fs => join ts_separator (map ScalarFactor_to_string fs)
  end.

(** ** treeamps-cli/src/main.rs: [run_gen_ts]

    The outcome of [run_gen_ts]: an [eprintln!] followed by [exit(1)] (one
    tag per message), a panic, or the list of structures printed with the
    final [deg] and [ee]. *)
Inductive CliExitReason := ExitNoLegs | ExitInconsistent | ExitEeAboveDeg.

Inductive CliOutcome :=
  | CliExit (r : CliExitReason)
  | CliPanic
  | CliDone (deg ee : N) (ts : list TensorStructure).

(** [x - y] on [u32]: panics on underflow. *)
Definition u32_sub (x y : N) : option N := if (x <? y)%N then None else Some (x - y)%N.

Definition run_gen_ts (n : nat) (deg ee : N) : CliOutcome :=
  if n =? 0 then CliExit ExitNoLegs
  else
    match u32_sub (N.of_nat n) ee with
    | None => CliPanic
    | Some implied_deg =>
    match u32_sub (N.of_nat n) deg with
    | None => CliPanic
    | Some implied_ee =>
      let inferred :=
        if negb (deg =? 0)%N && negb (ee =? 0)%N then
          if negb (deg =? implied_deg)%N || negb (ee =? implied_ee)%N then None
          else Some (deg, ee)
        else if (deg =? 0)%N && negb (ee =? 0)%N then Some (implied_deg, ee)
        else if (ee =? 0)%N && negb (deg =? 0)%N then Some (deg, implied_ee)
        else Some (N.of_nat n, 0%N) in
      match inferred with
      | None => CliExit ExitInconsistent
      | Some (deg', ee') =>
          if (deg' <? ee')%N then CliExit ExitEeAboveDeg
          else
            let cfg := mkCfg n (transversality GenConfig_default)
                             (pol_pattern GenConfig_default) in
            match generate_tensor_structures cfg deg' ee' with
            | Some ts => CliDone deg' ee' ts
            | None => CliPanic
            end
      end
    end
    end.

(** ** Definitions used by the proofs *)

Definition cmp_le {A} `{Ord A} (x y : A) : Prop := cmp x y <> Gt.
Definition cmp_lt {A} `{Ord A} (x y : A) : Prop := cmp x y = Lt.

(** [s'] is [s] after choosing the factors [fs], in order. *)
Definition Extends (s : DfsState) (fs : list ScalarFactor) (s' : DfsState) : Prop :=
  target_deg s' = target_deg s /\ ee_needed s' = ee_needed s /\
  nlegs s' = nlegs s /\ enforce_one_pol s' = enforce_one_pol s /\
  catalog s' = catalog s /\
  factors (cur s') = factors (cur s) ++ fs /\
  ee_so_far s' = (ee_so_far s + N.of_nat (count_ee fs))%N /\
  (enforce_one_pol s = true ->
     pe_so_far s' = (pe_so_far s + N.of_nat (count_pe fs))%N /\
     forall r, nth r (pol_count s') 0%N = (nth r (pol_count s) 0 + N.of_nat (touches r fs))%N).

Definition cat_nth (cat : list ScalarFactor) (k : nat) : ScalarFactor :=
  nth k cat (sf_pp 0 0).

Definition insert_leaves (L : list DfsState) (out : list TensorStructure)
  : list TensorStructure :=
  fold_left (fun o s' => set_insert (canonicalize (cur s')) o) L out.

Definition accepted_from (s : DfsState) (idx : nat) (s' : DfsState) : Prop :=
  exists q, Sorted le q /\ Forall (fun k => idx <= k < length (catalog s)) q /\
    extend_path s q = Some s' /\ deg_so_far s' = target_deg s' /\
    leaf_accepts s' = true.

Definition leaf_key (s : DfsState) : list ScalarFactor := sort (factors (cur s)).

Definition pp_row_list (n i j0 : nat) : list ScalarFactor :=
  flat_map (fun j => if (i =? n) || (j =? n) then [] else [sf_pp i j]) (range_incl j0 n).

Definition pe_row_list (tr : Transversality.t) (n i : nat) : list ScalarFactor :=
  flat_map (fun j => if forbids_self_dot tr && (i =? j) then []
                     else if (j =? n) && (i =? 1) then [] else [sf_pe i j])
    (range_incl 1 n).

Definition ee_row_list (n i j0 : nat) : list ScalarFactor :=
  flat_map (fun j => [sf_ee i j]) (range_incl j0 n).

Definition pp_list (n : nat) : list ScalarFactor :=
  flat_map (fun i => pp_row_list n i (S i)) (range_incl 1 n).
Definition pe_list (tr : Transversality.t) (n : nat) : list ScalarFactor :=
  flat_map (fun i => if i =? n then [] else pe_row_list tr n i) (range_incl 1 n).
Definition ee_list (n : nat) : list ScalarFactor :=
  flat_map (fun i => ee_row_list n i (S i)) (range_incl 1 n).

(** The leg indices a factor gives to [pol_count] are at most [n]. *)
Definition legs_ok (n : nat) (f : ScalarFactor) : Prop :=
  match kind f with
  | PP => True
  | PE => b f <= n
  | EE => a f <= n /\ b f <= n
  end.

(** The polarization indices of a factor are legs [1..n]. *)
Definition legs_range (n : nat) (f : ScalarFactor) : Prop :=
  match kind f with
  | PP => True
  | PE => 1 <= b f <= n
  | EE => 1 <= a f <= n /\ 1 <= b f <= n
  end.

(** What keeps the search from failing: [remain * 2] fits in a [u32], and
    every polarization index of a catalog factor is within [pol_count]. *)
Definition search_ok (s : DfsState) : Prop :=
  enforce_one_pol s = true ->
  (target_deg s < 2147483648)%N /\ length (pol_count s) = nlegs s + 1 /\
  (forall f, In f (catalog s) -> legs_ok (nlegs s) f).

(** Character classes of the printed strings. *)
Fixpoint all_chars (p : Ascii.ascii -> bool) (s : String.string) : bool :=
  match s with
  | String.EmptyString => true
  | String.String c s' => p c && all_chars p s'
  end.

Definition starts_outside (p : Ascii.ascii -> bool) (s : String.string) : bool :=
  match s with
  | String.EmptyString => true
  | String.String c _ => negb (p c)
  end.

Definition is_digit (c : Ascii.ascii) : bool :=
  (48 <=? Ascii.nat_of_ascii c) && (Ascii.nat_of_ascii c <=? 57).

Definition not_space (c : Ascii.ascii) : bool := negb (Ascii.nat_of_ascii c =? 32).

(** The number a string of decimal digits denotes. *)
Fixpoint str_value (s : String.string) : nat :=
  match s with
  | String.EmptyString => 0
  | String.String c s' => (Ascii.nat_of_ascii c - 48) * 10 ^ String.length s' + str_value s'
  end.

(** The configurations and outputs of the concrete scenarios. *)
Definition cfg4 : GenConfig := mkCfg 4 Transversality.ForbidPiDotEi OnePerLeg.

Definition out_4_3_1 : list TensorStructure :=
  Eval vm_compute in
    match generate_tensor_structures cfg4 3 1 with Some l => l | None => [] end.

Definition ts_4_3_1 : TensorStructure := hd TensorStructure_new out_4_3_1.

Definition out_default_4_1 : list TensorStructure :=
  Eval vm_compute in
    match generate_tensor_structures GenConfig_default 4 1 with Some l => l | None => [] end.

Definition cfg3_unres : GenConfig := mkCfg 3 Transversality.ForbidPiDotEi Unrestricted.

Definition out_unres_3_2_1 : list TensorStructure :=
  Eval vm_compute in
    match generate_tensor_structures cfg3_unres 2 1 with Some l => l | None => [] end.

(** ** Order laws *)

#[export] Instance OrdLaws_nat : OrdLaws nat.
Proof.
  split; unfold cmp, Ord_nat.
  - apply Nat.compare_eq_iff.
  - intros; apply Nat.compare_antisym.
  - intros x y z H1 H2. apply Nat.compare_lt_iff in H1, H2.
    apply Nat.compare_lt_iff; lia.
Qed.

#[export] Instance OrdLaws_ScalarKind : OrdLaws ScalarKind.
Proof.
  split; unfold cmp, Ord_ScalarKind.
  - intros [] []; simpl; split; congruence.
  - intros; apply Nat.compare_antisym.
  - intros x y z H1 H2. apply Nat.compare_lt_iff in H1, H2.
    apply Nat.compare_lt_iff; lia.
Qed.

Ltac cmp_cases c :=
  let E := fresh "E" in
  destruct c eqn:E; simpl in *; try discriminate.

Lemma sf_cmp_def (x y : ScalarFactor) :
  cmp x y = match cmp (kind x) (kind y) with
            | Eq => match cmp (a x) (a y) with
                    | Eq => cmp (b x) (b y)
                    | non_eq => non_eq
                    end
            | non_eq => non_eq
            end.
Proof. reflexivity. Qed.

#[export] Instance OrdLaws_ScalarFactor : OrdLaws ScalarFactor.
Proof.
  split.
  - intros [k1 a1 b1] [k2 a2 b2]; rewrite sf_cmp_def; simpl. split.
    + cmp_cases (cmp k1 k2); cmp_cases (cmp a1 a2); intro H;
        apply cmp_eq_iff in E, E0, H; subst; reflexivity.
    + intros H; inversion H; subst.
      rewrite !(proj2 (cmp_eq_iff _ _) eq_refl); reflexivity.
  - intros [k1 a1 b1] [k2 a2 b2]; rewrite !sf_cmp_def; simpl.
    rewrite (cmp_antisym k1 k2), (cmp_antisym a1 a2), (cmp_antisym b1 b2).
    destruct (cmp k1 k2), (cmp a1 a2), (cmp b1 b2); reflexivity.
  - intros [k1 a1 b1] [k2 a2 b2] [k3 a3 b3]; rewrite !sf_cmp_def; simpl.
    destruct (cmp k1 k2) eqn:K12; try discriminate;
    destruct (cmp k2 k3) eqn:K23; try discriminate;
    try (apply cmp_eq_iff in K12); try (apply cmp_eq_iff in K23); subst;
    try (rewrite (cmp_lt_trans _ _ _ K12 K23); reflexivity);
    try (rewrite K12; reflexivity); try (rewrite K23; reflexivity);
    rewrite (proj2 (cmp_eq_iff k3 k3) eq_refl);
    destruct (cmp a1 a2) eqn:A12; try discriminate;
    destruct (cmp a2 a3) eqn:A23; try discriminate;
    try (apply cmp_eq_iff in A12); try (apply cmp_eq_iff in A23); subst;
    try (rewrite (cmp_lt_trans _ _ _ A12 A23); reflexivity);
    try (rewrite A12; reflexivity); try (rewrite A23; reflexivity);
    rewrite (proj2 (cmp_eq_iff a3 a3) eq_refl);
    intros; eapply cmp_lt_trans; eassumption.
Qed.

Section ListOrd.
Context {A : Type} `{OrdLaws A}.

Lemma list_cmp_eq_iff (l1 l2 : list A) : list_cmp l1 l2 = Eq <-> l1 = l2.
Proof.
  revert l2; induction l1 as [|x l1 IH]; intros [|y l2]; simpl;
    try (split; congruence).
  destruct (cmp x y) eqn:E; split; try congruence.
  - intros Hl. apply IH in Hl. apply cmp_eq_iff in E. congruence.
  - intros Hxy; inversion Hxy; subst. apply IH; reflexivity.
  - intros Hxy; inversion Hxy; subst.
    rewrite (proj2 (cmp_eq_iff y y) eq_refl) in E; discriminate.
  - intros Hxy; inversion Hxy; subst.
    rewrite (proj2 (cmp_eq_iff y y) eq_refl) in E; discriminate.
Qed.

Lemma list_cmp_antisym (l1 l2 : list A) : list_cmp l2 l1 = CompOpp (list_cmp l1 l2).
Proof.
  revert l2; induction l1 as [|x l1 IH]; intros [|y l2]; simpl; try reflexivity.
  rewrite (cmp_antisym x y). destruct (cmp x y); simpl; auto.
Qed.

Lemma list_cmp_lt_trans (l1 l2 l3 : list A) :
  list_cmp l1 l2 = Lt -> list_cmp l2 l3 = Lt -> list_cmp l1 l3 = Lt.
Proof.
  revert l2 l3; induction l1 as [|x l1 IH]; intros [|y l2] [|z l3]; simpl;
    try discriminate; try reflexivity.
  destruct (cmp x y) eqn:Exy; try discriminate;
  destruct (cmp y z) eqn:Eyz; try discriminate;
  try (apply cmp_eq_iff in Exy); try (apply cmp_eq_iff in Eyz); subst;
  try (rewrite (proj2 (cmp_eq_iff z z) eq_refl); apply IH);
  try (rewrite Exy; reflexivity); try (rewrite Eyz; reflexivity).
  rewrite (cmp_lt_trans _ _ _ Exy Eyz); reflexivity.
Qed.

#[export] Instance OrdLaws_list : OrdLaws (list A).
Proof.
  split.
  - exact list_cmp_eq_iff.
  - exact list_cmp_antisym.
  - exact list_cmp_lt_trans.
Qed.
End ListOrd.

(** [a <= b] for an [Ord]. *)
Section SortFacts.
Context {A : Type} `{Ord A}.

Lemma insert_sorted_perm (x : A) (l : list A) :
  Permutation (insert_sorted x l) (x :: l).
Proof.
  induction l as [|y l IH]; simpl; [auto|].
  destruct (cmp x y); auto;
    (eapply perm_trans; [apply perm_skip, IH | apply perm_swap]).
Qed.

Lemma fold_insert_perm (l acc : list A) :
  Permutation (fold_left (fun acc x => insert_sorted x acc) l acc) (l ++ acc).
Proof.
  revert acc; induction l as [|x l IH]; intros acc; simpl; [auto|].
  eapply perm_trans; [apply IH|].
  eapply perm_trans; [apply Permutation_app_head, insert_sorted_perm|].
  apply Permutation_sym, Permutation_middle.
Qed.

Lemma sort_perm (l : list A) : Permutation (sort l) l.
Proof.
  unfold sort. eapply perm_trans; [apply fold_insert_perm|].
  rewrite app_nil_r; auto.
Qed.

Context `{!OrdLaws A}.

Lemma HdRel_insert_sorted (y x : A) (l : list A) :
  HdRel cmp_le y l -> cmp_le y x -> HdRel cmp_le y (insert_sorted x l).
Proof.
  destruct l as [|z l]; simpl; intros Hh Hyx; [constructor; auto|].
  inversion Hh; subst. destruct (cmp x z); constructor; auto.
Qed.

Lemma insert_sorted_sorted (x : A) (l : list A) :
  Sorted cmp_le l -> Sorted cmp_le (insert_sorted x l).
Proof.
  induction l as [|y l IH]; simpl; intros Hs; [repeat constructor|].
  inversion Hs; subst.
  destruct (cmp x y) eqn:E.
  - constructor; [apply IH; auto|].
    apply HdRel_insert_sorted; auto.
    unfold cmp_le. rewrite cmp_antisym, E. discriminate.
  - constructor; [constructor; auto|]. constructor. unfold cmp_le; congruence.
  - constructor; [apply IH; auto|].
    apply HdRel_insert_sorted; auto.
    unfold cmp_le. rewrite cmp_antisym, E. discriminate.
Qed.

Lemma sort_sorted (l : list A) : Sorted cmp_le (sort l).
Proof.
  unfold sort. assert (Hacc : Sorted cmp_le (@nil A)) by constructor.
  revert Hacc. generalize (@nil A). induction l as [|x l IH]; simpl; auto.
  intros acc Hacc. apply IH, insert_sorted_sorted, Hacc.
Qed.
End SortFacts.

(** ** The result set *)

Lemma ts_cmp_eq_iff (t u : TensorStructure) : cmp t u = Eq <-> factors t = factors u.
Proof. apply list_cmp_eq_iff. Qed.

Lemma ts_cmp_antisym (t u : TensorStructure) : cmp u t = CompOpp (cmp t u).
Proof. apply list_cmp_antisym. Qed.

Lemma ts_cmp_lt_trans (t u v : TensorStructure) :
  cmp t u = Lt -> cmp u v = Lt -> cmp t v = Lt.
Proof. apply list_cmp_lt_trans. Qed.

Lemma set_insert_in (x t : TensorStructure) (s : list TensorStructure) :
  In t (set_insert x s) -> t = x \/ In t s.
Proof.
  induction s as [|u s IH]; simpl; [intuition|].
  destruct (cmp x u); simpl; intuition.
Qed.

Lemma HdRel_set_insert (u x : TensorStructure) (s : list TensorStructure) :
  HdRel cmp_lt u s -> cmp_lt u x -> HdRel cmp_lt u (set_insert x s).
Proof.
  destruct s as [|v s]; simpl; intros Hh Hux; [constructor; auto|].
  inversion Hh; subst. destruct (cmp x v); constructor; auto.
Qed.

Lemma set_insert_sorted (x : TensorStructure) (s : list TensorStructure) :
  Sorted cmp_lt s -> Sorted cmp_lt (set_insert x s).
Proof.
  induction s as [|u s IH]; simpl; intros Hs; [repeat constructor|].
  inversion Hs; subst.
  destruct (cmp x u) eqn:E.
  - exact Hs.
  - constructor; [constructor; auto|]. constructor. exact E.
  - constructor; [apply IH; auto|].
    apply HdRel_set_insert; auto.
    unfold cmp_lt. rewrite ts_cmp_antisym, E. reflexivity.
Qed.

(** Without an element comparing [Equal], [BTreeSet::insert] is the sorted
    insertion. *)
Lemma set_insert_fresh (x : TensorStructure) (s : list TensorStructure) :
  (forall u, In u s -> factors x <> factors u) -> set_insert x s = insert_sorted x s.
Proof.
  induction s as [|u s IH]; simpl; intros Hf; [reflexivity|].
  destruct (cmp x u) eqn:E; [|reflexivity|].
  - apply ts_cmp_eq_iff in E. exfalso; apply (Hf u); auto.
  - rewrite IH; auto.
Qed.

Lemma dedup_nodup (l : list TensorStructure) : NoDup l -> dedup l = l.
Proof.
  induction l as [|x l IH]; simpl; intros Hnd; [reflexivity|].
  inversion Hnd; subst.
  destruct l as [|y l]; [reflexivity|].
  destruct (TensorStructure_eq_dec x y) as [->|_].
  - exfalso; simpl in *; intuition.
  - rewrite IH; auto.
Qed.

(** ** Effect of [extend] on the search state *)

Lemma length_list_set {A} (l : list A) k v : length (list_set l k v) = length l.
Proof. revert k; induction l as [|x l IH]; intros [|k]; simpl; auto. Qed.

Lemma nth_list_set {A} (l : list A) k v r d :
  k < length l -> nth r (list_set l k v) d = if r =? k then v else nth r l d.
Proof.
  revert k r; induction l as [|x l IH]; intros [|k] [|r] Hk; simpl in *;
    try lia; auto.
  apply IH; lia.
Qed.

Lemma pc_incr_spec pc k pc' :
  pc_incr pc k = Some pc' ->
  length pc' = length pc /\ k < length pc /\
  forall r, nth r pc' 0%N = (nth r pc 0 + if Nat.eqb k r then 1 else 0)%N.
Proof.
  unfold pc_incr. destruct (Nat.ltb_spec k (length pc)) as [Hk|]; [|discriminate].
  intros [= <-]. split; [apply length_list_set|]. split; [exact Hk|].
  intros r. rewrite nth_list_set by exact Hk.
  destruct (Nat.eqb_spec r k), (Nat.eqb_spec k r); subst; try lia; congruence.
Qed.

Lemma touches_app r l1 l2 : touches r (l1 ++ l2) = touches r l1 + touches r l2.
Proof. induction l1 as [|f l1 IH]; simpl; [auto|]. destruct (kind f); lia. Qed.

Lemma count_ee_app l1 l2 : count_ee (l1 ++ l2) = count_ee l1 + count_ee l2.
Proof. unfold count_ee. rewrite filter_app, length_app. reflexivity. Qed.

Lemma count_pe_app l1 l2 : count_pe (l1 ++ l2) = count_pe l1 + count_pe l2.
Proof. unfold count_pe. rewrite filter_app, length_app. reflexivity. Qed.

Lemma touches_perm r l1 l2 : Permutation l1 l2 -> touches r l1 = touches r l2.
Proof.
  induction 1; simpl; auto.
  - rewrite IHPermutation; reflexivity.
  - destruct (kind x), (kind y); lia.
  - congruence.
Qed.

Lemma count_ee_perm l1 l2 : Permutation l1 l2 -> count_ee l1 = count_ee l2.
Proof.
  unfold count_ee. induction 1; simpl; auto.
  - destruct (is_ee x); simpl; auto.
  - destruct (is_ee x), (is_ee y); simpl; auto.
  - congruence.
Qed.

Lemma Extends_nil s : Extends s [] s.
Proof.
  repeat split; try rewrite app_nil_r; simpl; auto; try lia;
    try (intros; lia).
Qed.

Lemma extend_Extends s f s' : extend s f = Some s' -> Extends s [f] s'.
Proof.
  unfold extend, Extends, ee_so_far, count_ee, count_pe, is_ee, is_pe.
  destruct (enforce_one_pol s) eqn:Hen.
  - destruct (add_polarizations (pol_count s) f) as [pc|] eqn:Hpc; [|discriminate].
    intros [= <-]; simpl.
    do 6 (split; [reflexivity|]).
    split; [destruct (kind f); simpl; lia|].
    intros _. split; [destruct (kind f); simpl; lia|].
    intros r. unfold add_polarizations in Hpc.
    destruct (kind f).
    + inversion Hpc; subst; lia.
    + apply pc_incr_spec in Hpc as (_ & _ & Hn). rewrite Hn.
      destruct (b f =? r); simpl; lia.
    + destruct (pc_incr (pol_count s) (a f)) as [pc1|] eqn:H1; [|discriminate].
      apply pc_incr_spec in H1 as (_ & _ & H1).
      apply pc_incr_spec in Hpc as (_ & _ & H2).
      rewrite H2, H1.
      destruct (a f =? r), (b f =? r); simpl; lia.
  - intros [= <-]; simpl.
    do 6 (split; [reflexivity|]).
    split; [destruct (kind f); simpl; lia|].
    discriminate.
Qed.

Lemma Extends_trans s fs s1 gs s2 :
  Extends s fs s1 -> Extends s1 gs s2 -> Extends s (fs ++ gs) s2.
Proof.
  intros (T1 & N1 & L1 & E1 & C1 & F1 & Ee1 & P1) (T2 & N2 & L2 & E2 & C2 & F2 & Ee2 & P2).
  do 5 (split; [congruence|]).
  split; [rewrite F2, F1, app_assoc; reflexivity|].
  split; [rewrite Ee2, Ee1, count_ee_app; lia|].
  intros He. destruct (P1 He) as [Pe1 Q1]. rewrite E1 in P2.
  destruct (P2 He) as [Pe2 Q2]. split.
  - rewrite Pe2, Pe1, count_pe_app; lia.
  - intros r. rewrite Q2, Q1, touches_app; lia.
Qed.

Lemma extend_path_Extends q s s' :
  extend_path s q = Some s' -> Extends s (map (cat_nth (catalog s)) q) s'.
Proof.
  revert s; induction q as [|k q IH]; intros s; simpl.
  - intros [= <-]. apply Extends_nil.
  - destruct (extend s (nth k (catalog s) (sf_pp 0 0))) as [s1|] eqn:E; [|discriminate].
    intros Hp. apply extend_Extends in E. apply IH in Hp.
    assert (Hc : catalog s1 = catalog s) by apply E.
    rewrite Hc in Hp.
    apply (Extends_trans _ _ _ _ _ E Hp).
Qed.

Lemma extend_unrestricted s f :
  enforce_one_pol s = false -> exists s', extend s f = Some s'.
Proof. unfold extend. intros ->. eauto. Qed.

(** ** [dfs_emit] inserts exactly the leaves that [dfs_collect] collects *)

Lemma emit_loop_collect_loop rec_e rec_c s :
  (forall s' i out, rec_e s' i out = option_map (fun L => insert_leaves L out) (rec_c s' i)) ->
  forall rest i out,
    emit_loop rec_e s i rest out =
    option_map (fun L => insert_leaves L out) (collect_loop rec_c s i rest).
Proof.
  intros Hrec rest; induction rest as [|f rest IH]; intros i out; simpl; [reflexivity|].
  destruct (extend s f) as [s'|]; [|reflexivity].
  rewrite Hrec. destruct (rec_c s' i) as [L1|]; simpl; [|reflexivity].
  rewrite IH. destruct (collect_loop rec_c s (S i) rest) as [L2|]; simpl; [|reflexivity].
  unfold insert_leaves; rewrite fold_left_app; reflexivity.
Qed.

Lemma emit_collect fuel : forall s idx out,
  dfs_emit fuel s idx out =
  option_map (fun L => insert_leaves L out) (dfs_collect fuel s idx).
Proof.
  induction fuel as [|fuel IH]; intros s idx out; simpl; [reflexivity|].
  destruct (_ || _); [reflexivity|].
  destruct (if enforce_one_pol s then one_pol_prunes s else Proceed); try reflexivity.
  destruct (deg_so_far s =? target_deg s)%N.
  - destruct (leaf_accepts s); reflexivity.
  - apply emit_loop_collect_loop. intros; apply IH.
Qed.

(** ** Soundness: every accepted leaf is reached by a non-decreasing
    sequence of catalog indices, all at least the start index *)

Lemma skipn_cons_nth {A} (l : list A) i f rest d :
  skipn i l = f :: rest -> i < length l /\ nth i l d = f /\ rest = skipn (S i) l.
Proof.
  revert l; induction i as [|i IH]; intros [|x l]; simpl; try discriminate.
  - intros [= -> ->]. split; [lia|]. auto.
  - intros H. apply IH in H as (H1 & H2 & H3). split; [lia|]. auto.
Qed.

Lemma collect_loop_sound rec s :
  (forall s1 i L, rec s1 i = Some L -> forall s', In s' L -> accepted_from s1 i s') ->
  forall rest i L, rest = skipn i (catalog s) -> collect_loop rec s i rest = Some L ->
  forall s', In s' L ->
  exists k s1, i <= k < length (catalog s) /\
    extend s (cat_nth (catalog s) k) = Some s1 /\ accepted_from s1 k s'.
Proof.
  intros Hrec rest; induction rest as [|f rest IH]; intros i L Hr Hl s' Hin; simpl in Hl.
  - inversion Hl; subst; contradiction.
  - symmetry in Hr. apply (skipn_cons_nth _ _ _ _ (sf_pp 0 0)) in Hr as (Hi & Hf & Hrest).
    destruct (extend s f) as [s1|] eqn:E1; [|discriminate].
    destruct (rec s1 i) as [L1|] eqn:R1; [|discriminate].
    destruct (collect_loop rec s (S i) rest) as [L2|] eqn:R2; [|discriminate].
    inversion Hl; subst L. apply in_app_or in Hin as [Hin|Hin].
    + exists i, s1. split; [lia|]. unfold cat_nth; rewrite Hf.
      split; [exact E1|]. eapply Hrec; eauto.
    + destruct (IH (S i) L2 Hrest R2 s' Hin) as (k & s2 & Hk & E2 & Ha).
      exists k, s2. split; [lia|]. auto.
Qed.

Lemma sorted_cons_ge k q : Sorted le q -> Forall (le k) q -> Sorted le (k :: q).
Proof.
  intros Hs Hf. constructor; auto.
  destruct q; constructor. inversion Hf; auto.
Qed.

Lemma collect_sound fuel : forall s idx L,
  dfs_collect fuel s idx = Some L -> forall s', In s' L -> accepted_from s idx s'.
Proof.
  induction fuel as [|fuel IH]; intros s idx L; simpl.
  - intros [= <-]; contradiction.
  - destruct (_ || _); [intros [= <-]; contradiction|].
    destruct (if enforce_one_pol s then one_pol_prunes s else Proceed);
      [| intros [= <-]; contradiction | discriminate].
    destruct (deg_so_far s =? target_deg s)%N eqn:Hdeg.
    + destruct (leaf_accepts s) eqn:Hacc; intros [= <-] s' Hin; [|contradiction].
      destruct Hin as [<-|[]]. exists [].
      split; [constructor|]. split; [constructor|]. split; [reflexivity|].
      split; [apply N.eqb_eq; exact Hdeg | exact Hacc].
    + intros Hl s' Hin.
      destruct (collect_loop_sound _ s IH _ idx L eq_refl Hl s' Hin)
        as (k & s1 & Hk & E1 & q & Hq & Hf & Hp & Hd & Ha).
      assert (Hc : catalog s1 = catalog s) by (apply extend_Extends in E1; apply E1).
      exists (k :: q). split; [|split; [|split]]; auto.
      * apply sorted_cons_ge; auto. eapply Forall_impl; [|exact Hf]. simpl; lia.
      * constructor; [lia|]. eapply Forall_impl; [|exact Hf]. rewrite Hc. simpl; lia.
      * simpl. unfold cat_nth in E1. rewrite E1. exact Hp.
Qed.

(** The factors of a leaf found below the branch that chose index [k]. *)
Lemma accepted_factors s k c s' :
  extend s (cat_nth (catalog s) k) = Some c -> accepted_from c k s' ->
  exists q, Forall (fun j => k <= j < length (catalog s)) q /\
    factors (cur s') = factors (cur s) ++ map (cat_nth (catalog s)) (k :: q).
Proof.
  intros E (q & _ & Hf & Hp & _).
  apply extend_Extends in E. apply extend_path_Extends in Hp.
  destruct E as (_ & _ & _ & _ & Hc & Fc & _).
  destruct Hp as (_ & _ & _ & _ & _ & Fs & _).
  rewrite Hc in Hf, Fs. exists q. split; [exact Hf|].
  rewrite Fs, Fc, <- app_assoc. reflexivity.
Qed.

(** ** Distinct selection paths give distinct canonical structures *)

Lemma sort_eq_perm (l1 l2 : list ScalarFactor) : sort l1 = sort l2 -> Permutation l1 l2.
Proof.
  intros H. eapply perm_trans; [apply Permutation_sym, sort_perm|].
  rewrite H. apply sort_perm.
Qed.

Lemma key_disjoint s i c1 s1 k c2 s2 :
  NoDup (catalog s) -> i < k -> k < length (catalog s) ->
  extend s (cat_nth (catalog s) i) = Some c1 -> accepted_from c1 i s1 ->
  extend s (cat_nth (catalog s) k) = Some c2 -> accepted_from c2 k s2 ->
  leaf_key s1 <> leaf_key s2.
Proof.
  intros Hnd Hik Hk E1 A1 E2 A2 Hkey.
  destruct (accepted_factors _ _ _ _ E1 A1) as (q1 & Hq1 & F1).
  destruct (accepted_factors _ _ _ _ E2 A2) as (q2 & Hq2 & F2).
  apply sort_eq_perm in Hkey. rewrite F1, F2 in Hkey.
  apply Permutation_app_inv_l in Hkey.
  assert (Hin : In (cat_nth (catalog s) i) (map (cat_nth (catalog s)) (k :: q2))).
  { eapply Permutation_in; [exact Hkey|]. left; reflexivity. }
  apply in_map_iff in Hin as (j & Hj & Hjin).
  assert (Hjr : k <= j < length (catalog s)).
  { destruct Hjin as [<-|Hjin]; [lia|].
    rewrite Forall_forall in Hq2; apply Hq2, Hjin. }
  unfold cat_nth in Hj.
  assert (j = i); [|lia].
  apply (proj1 (NoDup_nth (catalog s) (sf_pp 0 0)) Hnd); [lia|lia|exact Hj].
Qed.

Lemma collect_loop_nodup rec s :
  NoDup (catalog s) ->
  (forall s1 i L, rec s1 i = Some L -> forall s', In s' L -> accepted_from s1 i s') ->
  (forall s1 i L, NoDup (catalog s1) -> rec s1 i = Some L -> NoDup (map leaf_key L)) ->
  forall rest i L, rest = skipn i (catalog s) -> collect_loop rec s i rest = Some L ->
  NoDup (map leaf_key L).
Proof.
  intros Hnd Hsound Hrec rest; induction rest as [|f rest IH]; intros i L Hr Hl;
    simpl in Hl.
  - inversion Hl; subst; constructor.
  - symmetry in Hr.
    apply (skipn_cons_nth _ _ _ _ (sf_pp 0 0)) in Hr as (Hi & Hf & Hrest).
    destruct (extend s f) as [s1|] eqn:E1; [|discriminate].
    destruct (rec s1 i) as [L1|] eqn:R1; [|discriminate].
    destruct (collect_loop rec s (S i) rest) as [L2|] eqn:R2; [|discriminate].
    inversion Hl; subst L. rewrite map_app. apply NoDup_app.
    + eapply Hrec; [|exact R1].
      apply extend_Extends in E1. destruct E1 as (_ & _ & _ & _ & -> & _). exact Hnd.
    + eapply IH; eauto.
    + intros x Hx1 Hx2.
      apply in_map_iff in Hx1 as (t1 & <- & Ht1).
      apply in_map_iff in Hx2 as (t2 & Heq & Ht2).
      destruct (collect_loop_sound rec s Hsound rest (S i) L2 Hrest R2 t2 Ht2)
        as (k & c2 & Hk & E2 & A2).
      assert (E1' : extend s (cat_nth (catalog s) i) = Some s1)
        by (unfold cat_nth; rewrite Hf; exact E1).
      exact (key_disjoint s i s1 t1 k c2 t2 Hnd ltac:(lia) ltac:(lia)
               E1' (Hsound _ _ _ R1 _ Ht1) E2 A2 (eq_sym Heq)).
Qed.

Lemma collect_nodup fuel : forall s idx L,
  NoDup (catalog s) -> dfs_collect fuel s idx = Some L -> NoDup (map leaf_key L).
Proof.
  induction fuel as [|fuel IH]; intros s idx L Hnd; simpl.
  - intros [= <-]; constructor.
  - destruct (_ || _); [intros [= <-]; constructor|].
    destruct (if enforce_one_pol s then one_pol_prunes s else Proceed);
      [| intros [= <-]; constructor | discriminate].
    destruct (deg_so_far s =? target_deg s)%N.
    + destruct (leaf_accepts s); intros [= <-]; simpl;
        repeat constructor; auto.
    + intros Hl.
      exact (collect_loop_nodup (dfs_collect fuel) s Hnd (collect_sound fuel)
               (fun s1 i L H1 H2 => IH s1 i L H1 H2) _ idx L eq_refl Hl).
Qed.

(** ** Completeness of the unrestricted search *)

Lemma collect_loop_some rec s :
  enforce_one_pol s = false ->
  (forall s1 i, enforce_one_pol s1 = false -> exists L, rec s1 i = Some L) ->
  forall rest i, exists L, collect_loop rec s i rest = Some L.
Proof.
  intros Hen Hrec rest; induction rest as [|f rest IH]; intros i; simpl; [eauto|].
  destruct (extend_unrestricted s f Hen) as [s1 E1]. rewrite E1.
  assert (Hen1 : enforce_one_pol s1 = false).
  { apply extend_Extends in E1. destruct E1 as (_ & _ & _ & -> & _). exact Hen. }
  destruct (Hrec s1 i Hen1) as [L1 ->]. destruct (IH (S i)) as [L2 ->]. eauto.
Qed.

Lemma collect_some fuel : forall s idx,
  enforce_one_pol s = false -> exists L, dfs_collect fuel s idx = Some L.
Proof.
  induction fuel as [|fuel IH]; intros s idx Hen; simpl; [eauto|].
  destruct (_ || _); [eauto|]. rewrite Hen.
  destruct (deg_so_far s =? target_deg s)%N; [eauto|].
  apply collect_loop_some; auto.
Qed.

Lemma collect_loop_complete rec s k c s' L1 :
  enforce_one_pol s = false ->
  (forall s1 i, enforce_one_pol s1 = false -> exists L, rec s1 i = Some L) ->
  extend s (cat_nth (catalog s) k) = Some c -> rec c k = Some L1 -> In s' L1 ->
  forall rest i, rest = skipn i (catalog s) -> i <= k < length (catalog s) ->
  exists L, collect_loop rec s i rest = Some L /\ In s' L.
Proof.
  intros Hen Hrec Ec Rc Hin rest; induction rest as [|f rest IH]; intros i Hr Hk.
  - exfalso.
    assert (Hl : length (skipn i (catalog s)) = 0) by (rewrite <- Hr; reflexivity).
    rewrite length_skipn in Hl. lia.
  - symmetry in Hr.
    apply (skipn_cons_nth _ _ _ _ (sf_pp 0 0)) in Hr as (Hi & Hf & Hrest).
    simpl.
    destruct (Nat.eq_dec i k) as [->|Hne].
    + unfold cat_nth in Ec. rewrite Hf in Ec. rewrite Ec, Rc.
      destruct (collect_loop_some rec s Hen Hrec rest (S k)) as [L2 ->].
      exists (L1 ++ L2). split; [reflexivity|]. apply in_or_app; left; exact Hin.
    + destruct (extend_unrestricted s f Hen) as [s1 E1]. rewrite E1.
      assert (Hen1 : enforce_one_pol s1 = false).
      { apply extend_Extends in E1. destruct E1 as (_ & _ & _ & -> & _). exact Hen. }
      destruct (Hrec s1 i Hen1) as [L0 ->].
      destruct (IH (S i) Hrest ltac:(lia)) as (L2 & -> & Hin2).
      exists (L0 ++ L2). split; [reflexivity|]. apply in_or_app; right; exact Hin2.
Qed.

Lemma sorted_head_le k q : Sorted le (k :: q) -> Sorted le q /\ Forall (le k) q.
Proof.
  intros Hs. apply Sorted_StronglySorted in Hs; [|intros x y z; lia].
  apply StronglySorted_inv in Hs as [Hs Hf].
  split; [apply StronglySorted_Sorted, Hs | exact Hf].
Qed.

Lemma collect_complete fuel : forall q s idx s',
  enforce_one_pol s = false ->
  N.to_nat (target_deg s) < fuel + length (factors (cur s)) ->
  Sorted le q -> Forall (fun k => idx <= k < length (catalog s)) q ->
  extend_path s q = Some s' ->
  deg_so_far s' = target_deg s' -> ee_so_far s' = ee_needed s' ->
  exists L, dfs_collect fuel s idx = Some L /\ In s' L.
Proof.
  induction fuel as [|fuel IH]; intros q s idx s' Hen Hfuel Hq Hf Hp Hdeg Hee;
    pose proof (extend_path_Extends _ _ _ Hp) as (T & Ne & _ & _ & _ & F & Ee & _);
    unfold deg_so_far in Hdeg; rewrite F, T, length_app, length_map in Hdeg.
  - lia.
  - simpl. unfold deg_so_far.
    replace ((target_deg s <? N.of_nat (length (factors (cur s))))%N ||
             (ee_needed s <? ee_so_far s)%N) with false
      by (symmetry; apply orb_false_iff; split; apply N.ltb_ge; lia).
    rewrite Hen.
    destruct q as [|k q].
    + simpl in Hp. injection Hp as <-.
      simpl in Hdeg. rewrite Nat.add_0_r in Hdeg.
      rewrite (proj2 (N.eqb_eq _ _) Hdeg).
      unfold leaf_accepts. rewrite Hen, Hee, N.eqb_refl. simpl.
      exists [s]; split; [reflexivity | left; reflexivity].
    + simpl in Hdeg.
      replace (N.of_nat (length (factors (cur s))) =? target_deg s)%N with false
        by (symmetry; apply N.eqb_neq; lia).
      simpl in Hp.
      destruct (extend s (nth k (catalog s) (sf_pp 0 0))) as [c|] eqn:Ec; [|discriminate].
      pose proof (extend_Extends _ _ _ Ec) as (Tc & Nc & _ & Enc & Cc & Fc & _).
      apply sorted_head_le in Hq as [Hq Hkq].
      inversion Hf as [|? ? Hk Hf']; subst.
      assert (Hen_c : enforce_one_pol c = false) by congruence.
      assert (Hfuel_c : N.to_nat (target_deg c) < fuel + length (factors (cur c)))
        by (rewrite Tc, Fc, length_app; simpl; lia).
      assert (Hf_c : Forall (fun j => k <= j < length (catalog c)) q).
      { rewrite Forall_forall in Hf', Hkq |- *. intros j Hj.
        rewrite Cc. split; [apply Hkq, Hj | apply Hf', Hj]. }
      destruct (IH q c k s' Hen_c Hfuel_c Hq Hf_c Hp) as (L1 & R1 & Hin1);
        [unfold deg_so_far; rewrite F, T, length_app, length_map; simpl; lia | exact Hee |].
      exact (collect_loop_complete (dfs_collect fuel) s k c s' L1 Hen
                 (fun s1 i H => collect_some fuel s1 i H) Ec R1 Hin1
                 _ idx eq_refl Hk).
Qed.

(** ** The catalog *)

Lemma fold_left_push {A B} (h : A -> list B) (f : list B -> A -> list B) :
  (forall acc x, f acc x = acc ++ h x) ->
  forall l acc, fold_left f l acc = acc ++ flat_map h l.
Proof.
  intros Hf l; induction l as [|x l IH]; intros acc; simpl; [rewrite app_nil_r; reflexivity|].
  rewrite IH, Hf, app_assoc; reflexivity.
Qed.

Lemma pp_rows_spec n is acc :
  pp_rows n is acc =
  if forallb (fun i => i <? 255) is
  then Some (acc ++ flat_map (fun i => pp_row_list n i (S i)) is) else None.
Proof.
  revert acc; induction is as [|i is IH]; intros acc; simpl.
  - rewrite app_nil_r; reflexivity.
  - unfold u8_add1. destruct (i <? 255); simpl; [|reflexivity].
    rewrite IH. unfold pp_row.
    rewrite (fold_left_push (fun j => if (i =? n) || (j =? n) then [] else [sf_pp i j]))
      by (intros acc' j; destruct (_ || _); simpl; auto using app_nil_r).
    rewrite app_assoc. reflexivity.
Qed.

Lemma ee_rows_spec n is acc :
  ee_rows n is acc =
  if forallb (fun i => i <? 255) is
  then Some (acc ++ flat_map (fun i => ee_row_list n i (S i)) is) else None.
Proof.
  revert acc; induction is as [|i is IH]; intros acc; simpl.
  - rewrite app_nil_r; reflexivity.
  - unfold u8_add1. destruct (i <? 255); simpl; [|reflexivity].
    rewrite IH. unfold ee_row.
    rewrite (fold_left_push (fun j => [sf_ee i j])) by reflexivity.
    rewrite app_assoc. reflexivity.
Qed.

Lemma pe_rows_spec tr n : pe_rows tr n [] = pe_list tr n.
Proof.
  unfold pe_rows, pe_list.
  rewrite (fold_left_push (fun i => if i =? n then [] else pe_row_list tr n i)); [reflexivity|].
  intros acc i. destruct (i =? n); [rewrite app_nil_r; reflexivity|].
  unfold pe_row, pe_row_list.
  apply fold_left_push. intros acc' j.
  destruct (forbids_self_dot tr && (i =? j)); [rewrite app_nil_r; reflexivity|].
  destruct ((j =? n) && (i =? 1)); [rewrite app_nil_r|]; reflexivity.
Qed.

Lemma u8_rows_ok n : forallb (fun i => i <? 255) (range_incl 1 n) = (n <? 255).
Proof.
  unfold range_incl. replace (S n - 1) with n by lia.
  destruct (Nat.ltb_spec n 255) as [Hn|Hn].
  - apply forallb_forall. intros i Hi. apply in_seq in Hi. apply Nat.ltb_lt. lia.
  - apply not_true_is_false. intros Hall. rewrite forallb_forall in Hall.
    assert (H255 : In 255 (seq 1 n)) by (apply in_seq; lia).
    apply Hall, Nat.ltb_lt in H255. lia.
Qed.

Lemma generate_valid_factors_eq cfg :
  generate_valid_factors cfg =
  if n_legs cfg <? 255
  then Some (sort (pp_list (n_legs cfg)),
             sort (pe_list (transversality cfg) (n_legs cfg)),
             sort (ee_list (n_legs cfg)))
  else None.
Proof.
  unfold generate_valid_factors.
  rewrite pp_rows_spec, ee_rows_spec, pe_rows_spec, u8_rows_ok.
  destruct (n_legs cfg <? 255); reflexivity.
Qed.

Lemma NoDup_flat_map_key {A B} (key : B -> A) (F : A -> list B) (is : list A) :
  NoDup is -> (forall i, In i is -> NoDup (F i)) ->
  (forall i x, In i is -> In x (F i) -> key x = i) -> NoDup (flat_map F is).
Proof.
  induction is as [|i is IH]; intros Hnd HF Hkey; simpl; [constructor|].
  inversion Hnd; subst. apply NoDup_app.
  - apply HF; left; reflexivity.
  - apply IH; auto.
    + intros j Hj; apply HF; right; exact Hj.
    + intros j x Hj Hx; apply Hkey; [right|]; auto.
  - intros x Hx1 Hx2. apply in_flat_map in Hx2 as (j & Hj & Hx2).
    assert (key x = i) by (apply Hkey; [left|]; auto).
    assert (key x = j) by (apply Hkey; [right|]; auto).
    subst. congruence.
Qed.

Lemma NoDup_single_or_nil {B} (c : bool) (x : B) : NoDup (if c then [] else [x]).
Proof. destruct c; repeat constructor; auto. Qed.

Lemma pp_list_nodup n : NoDup (pp_list n).
Proof.
  apply (NoDup_flat_map_key a); [apply seq_NoDup| |].
  - intros i _. apply (NoDup_flat_map_key b); [apply seq_NoDup| |].
    + intros; apply NoDup_single_or_nil.
    + intros j x _ Hx. destruct (_ || _); simpl in Hx; [contradiction|].
      destruct Hx as [<-|[]]; reflexivity.
  - intros i x _ Hx. apply in_flat_map in Hx as (j & _ & Hx).
    destruct (_ || _); simpl in Hx; [contradiction|]. destruct Hx as [<-|[]]; reflexivity.
Qed.

Lemma pe_list_nodup tr n : NoDup (pe_list tr n).
Proof.
  apply (NoDup_flat_map_key a); [apply seq_NoDup| |].
  - intros i _. destruct (i =? n); [constructor|].
    apply (NoDup_flat_map_key b); [apply seq_NoDup| |].
    + intros j _. destruct (_ && _); [constructor|]. apply NoDup_single_or_nil.
    + intros j x _ Hx. destruct (_ && _); [contradiction|].
      destruct (_ && _); simpl in Hx; [contradiction|].
      destruct Hx as [<-|[]]; reflexivity.
  - intros i x _ Hx. destruct (i =? n); [contradiction|].
    apply in_flat_map in Hx as (j & _ & Hx).
    destruct (_ && _); [contradiction|].
    destruct (_ && _); simpl in Hx; [contradiction|]. destruct Hx as [<-|[]]; reflexivity.
Qed.

Lemma ee_list_nodup n : NoDup (ee_list n).
Proof.
  apply (NoDup_flat_map_key a); [apply seq_NoDup| |].
  - intros i _. apply (NoDup_flat_map_key b); [apply seq_NoDup| |].
    + intros; repeat constructor; auto.
    + intros j x _ [<-|[]]; reflexivity.
  - intros i x _ Hx. apply in_flat_map in Hx as (j & _ & [<-|[]]); reflexivity.
Qed.

Lemma in_pp_list n f :
  In f (pp_list n) <->
  exists i j, f = sf_pp i j /\ 1 <= i /\ i < j /\ j <= n /\ i <> n /\ j <> n.
Proof.
  unfold pp_list, pp_row_list, range_incl. split.
  - intros H. apply in_flat_map in H as (i & Hi & H).
    apply in_flat_map in H as (j & Hj & H). apply in_seq in Hi, Hj.
    destruct (Nat.eqb_spec i n), (Nat.eqb_spec j n); simpl in H; try contradiction.
    destruct H as [<-|[]]. exists i, j. split; [reflexivity|lia].
  - intros (i & j & -> & H). apply in_flat_map. exists i.
    split; [apply in_seq; lia|]. apply in_flat_map. exists j.
    split; [apply in_seq; lia|].
    destruct (Nat.eqb_spec i n), (Nat.eqb_spec j n); try lia. left; reflexivity.
Qed.

Lemma in_pe_list tr n f :
  In f (pe_list tr n) <->
  exists i j, f = sf_pe i j /\ 1 <= i <= n - 1 /\ 1 <= j <= n /\
    (forbids_self_dot tr = true -> i <> j) /\ ~ (i = 1 /\ j = n).
Proof.
  unfold pe_list, pe_row_list, range_incl. split.
  - intros H. apply in_flat_map in H as (i & Hi & H). apply in_seq in Hi.
    destruct (Nat.eqb_spec i n); [contradiction|].
    apply in_flat_map in H as (j & Hj & H). apply in_seq in Hj.
    destruct (forbids_self_dot tr) eqn:Hf, (Nat.eqb_spec i j), (Nat.eqb_spec j n),
      (Nat.eqb_spec i 1); simpl in H; try contradiction;
      destruct H as [<-|[]]; exists i, j; split; try reflexivity;
      repeat split; try lia; discriminate.
  - intros (i & j & -> & Hi & Hj & Hself & H1n). apply in_flat_map. exists i.
    split; [apply in_seq; lia|].
    destruct (Nat.eqb_spec i n); [lia|].
    apply in_flat_map. exists j. split; [apply in_seq; lia|].
    destruct (forbids_self_dot tr) eqn:Hf.
    + destruct (Nat.eqb_spec i j); [exfalso; apply Hself; auto|].
      destruct (Nat.eqb_spec j n), (Nat.eqb_spec i 1); try (exfalso; lia);
        left; reflexivity.
    + destruct (Nat.eqb_spec j n), (Nat.eqb_spec i 1); try (exfalso; lia);
        simpl; left; reflexivity.
Qed.

Lemma in_ee_list n f :
  In f (ee_list n) <-> exists i j, f = sf_ee i j /\ 1 <= i /\ i < j /\ j <= n.
Proof.
  unfold ee_list, ee_row_list, range_incl. split.
  - intros H. apply in_flat_map in H as (i & Hi & H).
    apply in_flat_map in H as (j & Hj & [<-|[]]). apply in_seq in Hi, Hj.
    exists i, j. split; [reflexivity|lia].
  - intros (i & j & -> & H). apply in_flat_map. exists i.
    split; [apply in_seq; lia|]. apply in_flat_map. exists j.
    split; [apply in_seq; lia|]. left; reflexivity.
Qed.

Lemma catalog_nodup cfg pp pe ee :
  generate_valid_factors cfg = Some (pp, pe, ee) -> NoDup (pp ++ pe ++ ee).
Proof.
  rewrite generate_valid_factors_eq. destruct (n_legs cfg <? 255); [|discriminate].
  intros [= <- <- <-].
  assert (Hk : forall (l : list ScalarFactor) x, In x (sort l) -> In x l)
    by (intros l x Hx; eapply Permutation_in; [apply sort_perm|exact Hx]).
  assert (Hnd : forall l : list ScalarFactor, NoDup l -> NoDup (sort l))
    by (intros l Hl; eapply Permutation_NoDup; [apply Permutation_sym, sort_perm|exact Hl]).
  apply NoDup_app; [apply Hnd, pp_list_nodup|apply NoDup_app|].
  - apply Hnd, pe_list_nodup.
  - apply Hnd, ee_list_nodup.
  - intros x H1 H2. apply Hk, in_pe_list in H1 as (? & ? & -> & _).
    apply Hk, in_ee_list in H2 as (? & ? & H2 & _). discriminate.
  - intros x H1 H2. apply Hk, in_pp_list in H1 as (? & ? & -> & _).
    apply in_app_or in H2 as [H2|H2].
    + apply Hk, in_pe_list in H2 as (? & ? & H2 & _). discriminate.
    + apply Hk, in_ee_list in H2 as (? & ? & H2 & _). discriminate.
Qed.

Lemma sorted_nodup_strict (l : list ScalarFactor) :
  Sorted cmp_le l -> NoDup l -> StronglySorted cmp_lt l.
Proof.
  intros Hs Hnd. apply Sorted_StronglySorted; [intros x y z; apply cmp_lt_trans|].
  induction Hs as [|x l Hs IH Hhd]; constructor.
  - apply IH. inversion Hnd; auto.
  - destruct Hhd as [|y l' Hxy]; constructor.
    unfold cmp_le, cmp_lt in *. destruct (cmp x y) eqn:E; try congruence.
    apply cmp_eq_iff in E; subst. inversion Hnd; subst.
    exfalso; simpl in *; intuition.
Qed.

(** ** Results of [generate_tensor_structures] *)

Lemma set_insert_keep x u s : In u s -> In u (set_insert x s).
Proof.
  induction s as [|v s IH]; simpl; [contradiction|].
  destruct (cmp x v); simpl; intuition.
Qed.

Lemma set_insert_has x s : exists t, In t (set_insert x s) /\ factors t = factors x.
Proof.
  induction s as [|u s IH]; simpl; [exists x; auto|].
  destruct (cmp x u) eqn:E.
  - exists u. split; [left; reflexivity|]. apply ts_cmp_eq_iff in E; auto.
  - exists x. split; [left|]; reflexivity.
  - destruct IH as (t & Ht & Hf). exists t. split; [right|]; auto.
Qed.

Lemma insert_leaves_keep L acc t : In t acc -> In t (insert_leaves L acc).
Proof.
  revert acc; induction L as [|s L IH]; intros acc Ht; simpl; auto.
  apply IH, set_insert_keep, Ht.
Qed.

Lemma insert_leaves_in L acc t :
  In t (insert_leaves L acc) -> In t acc \/ exists s, In s L /\ t = canonicalize (cur s).
Proof.
  revert acc; induction L as [|s L IH]; intros acc Ht; simpl in *; auto.
  apply IH in Ht as [Ht|(s' & Hs' & ->)].
  - apply set_insert_in in Ht as [->|Ht]; auto. right; eauto.
  - right; eauto.
Qed.

Lemma insert_leaves_has L acc s :
  In s L -> exists t, In t (insert_leaves L acc) /\ factors t = factors (canonicalize (cur s)).
Proof.
  revert acc; induction L as [|s0 L IH]; intros acc Hs; simpl in *; [contradiction|].
  destruct Hs as [->|Hs]; [|apply IH; exact Hs].
  destruct (set_insert_has (canonicalize (cur s)) acc) as (t & Ht & Hf).
  exists t. split; [apply insert_leaves_keep, Ht | exact Hf].
Qed.

Lemma generate_collect cfg D E out :
  generate_tensor_structures cfg D E = Some out ->
  ((D = 0 \/ D < E)%N /\ out = []) \/
  ((D <> 0 /\ E <= D)%N /\
   exists pp pe ee L,
    generate_valid_factors cfg = Some (pp, pe, ee) /\
    dfs_collect (S (N.to_nat D)) (initial_state cfg D E (pp ++ pe ++ ee)) 0 = Some L /\
    out = insert_leaves L []).
Proof.
  unfold generate_tensor_structures.
  destruct (D =? 0)%N eqn:HD0; [apply N.eqb_eq in HD0; intros [= <-]; auto|].
  destruct (D <? E)%N eqn:HDE; [apply N.ltb_lt in HDE; intros [= <-]; auto|].
  apply N.eqb_neq in HD0. apply N.ltb_ge in HDE.
  destruct (generate_valid_factors cfg) as [[[pp pe] ee]|]; [|discriminate].
  rewrite emit_collect.
  destruct (dfs_collect _ _ _) as [L|] eqn:HL; [|discriminate].
  intros [= <-]. right. split; [auto|]. exists pp, pe, ee, L. auto.
Qed.

Lemma initial_Extends cfg D E cat q s' :
  extend_path (initial_state cfg D E cat) q = Some s' ->
  let fs := map (cat_nth cat) q in
  target_deg s' = D /\ ee_needed s' = E /\ nlegs s' = n_legs cfg /\
  enforce_one_pol s' = (match pol_pattern cfg with OnePerLeg => true | Unrestricted => false end) /\
  catalog s' = cat /\ factors (cur s') = fs /\
  ee_so_far s' = N.of_nat (count_ee fs) /\
  (pol_pattern cfg = OnePerLeg ->
     forall r, nth r (pol_count s') 0%N = N.of_nat (touches r fs)).
Proof.
  intros Hp. apply extend_path_Extends in Hp.
  destruct Hp as (T & Ne & L & En & C & F & Ee & P). simpl in *.
  do 6 (split; [assumption|]). split; [rewrite Ee; reflexivity|].
  intros Hpol. rewrite Hpol in P. destruct (P eq_refl) as [_ Q].
  intros r. rewrite Q, nth_repeat. lia.
Qed.

(** Every returned structure is the canonical form of an accepted leaf,
    reached from the root by a non-decreasing sequence of catalog indices. *)
Lemma generate_member cfg D E out t :
  generate_tensor_structures cfg D E = Some out -> In t out ->
  exists pp pe ee q s',
    generate_valid_factors cfg = Some (pp, pe, ee) /\
    Sorted le q /\ Forall (fun k => k < length (pp ++ pe ++ ee)) q /\
    extend_path (initial_state cfg D E (pp ++ pe ++ ee)) q = Some s' /\
    deg_so_far s' = D /\ leaf_accepts s' = true /\
    t = canonicalize (cur s').
Proof.
  intros Hg Ht.
  apply generate_collect in Hg as [[_ ->]|(_ & pp & pe & ee & L & Hc & HL & ->)];
    [contradiction|].
  apply insert_leaves_in in Ht as [[]|(s' & Hs' & ->)].
  destruct (collect_sound _ _ _ _ HL s' Hs') as (q & Hq & Hf & Hp & Hd & Ha).
  exists pp, pe, ee, q, s'. repeat split; auto.
  - eapply Forall_impl; [|exact Hf]. simpl; lia.
  - rewrite Hd. apply (initial_Extends _ _ _ _ _ _ Hp).
Qed.

(** Under one-pol-per-leg, a target degree of at least [2^31] makes
    [remain * 2] overflow at the root. *)
Lemma generate_one_pol_overflow cfg D E :
  pol_pattern cfg = OnePerLeg -> (2147483648 <= D)%N -> (E <= D)%N ->
  n_legs cfg < 255 ->
  generate_tensor_structures cfg D E = None.
Proof.
  intros Hpol HD HE Hn. unfold generate_tensor_structures.
  replace (D =? 0)%N with false by (symmetry; apply N.eqb_neq; lia).
  replace (D <? E)%N with false by (symmetry; apply N.ltb_ge; lia).
  rewrite generate_valid_factors_eq.
  replace (n_legs cfg <? 255) with true by (symmetry; apply Nat.ltb_lt; lia).
  simpl. unfold initial_state, deg_so_far, ee_so_far. rewrite Hpol. simpl.
  replace (D <? 0)%N with false by (symmetry; apply N.ltb_ge; lia).
  replace (E <? 0)%N with false by (symmetry; apply N.ltb_ge; lia).
  simpl. unfold one_pol_prunes. simpl.
  assert (Hx : forall l, existsb (fun r => 1 <? nth r (repeat 0 (n_legs cfg + 1)) 0)%N l = false).
  { induction l as [|r l IH]; simpl; [reflexivity|]. rewrite nth_repeat, IH. reflexivity. }
  rewrite Hx.
  change (deg_so_far _) with 0%N.
  replace (D - 0)%N with D by lia.
  replace (u32_max <? D * 2)%N with true by (symmetry; apply N.ltb_lt; unfold u32_max; lia).
  reflexivity.
Qed.

(** With [n_legs = 0] the catalog is empty; below the overflow the search
    returns the empty sequence. *)
Lemma generate_no_legs cfg D E :
  n_legs cfg = 0 -> (pol_pattern cfg = Unrestricted \/ (D < 2147483648)%N) ->
  generate_tensor_structures cfg D E = Some [].
Proof.
  intros Hn Hsafe. unfold generate_tensor_structures.
  destruct (D =? 0)%N eqn:HD0; [reflexivity|].
  destruct (D <? E)%N eqn:HDE; [reflexivity|].
  apply N.eqb_neq in HD0. apply N.ltb_ge in HDE.
  rewrite generate_valid_factors_eq, Hn. simpl.
  unfold initial_state, deg_so_far, ee_so_far. rewrite Hn. simpl.
  replace (D <? 0)%N with false by (symmetry; apply N.ltb_ge; lia).
  replace (E <? 0)%N with false by (symmetry; apply N.ltb_ge; lia).
  replace (D =? 0)%N with false by (symmetry; apply N.eqb_neq; lia).
  destruct (pol_pattern cfg) eqn:Hp; simpl.
  - destruct D as [|p]; [lia|reflexivity].
  - destruct Hsafe as [Hs|Hs]; [discriminate|].
    unfold one_pol_prunes. simpl. rewrite N.sub_0_r.
    replace (u32_max <? D * 2)%N with false by (symmetry; apply N.ltb_ge; unfold u32_max; lia).
    replace (D * 2 <? 0)%N with false by (symmetry; apply N.ltb_ge; lia).
    simpl.
    destruct D as [|p]; [lia|reflexivity].
Qed.

Lemma insert_leaves_sorted L acc :
  Sorted cmp_lt acc -> Sorted cmp_lt (insert_leaves L acc).
Proof.
  revert acc; induction L as [|s L IH]; intros acc Hacc; simpl; auto.
  apply IH, set_insert_sorted, Hacc.
Qed.

Lemma strict_ts_nodup (l : list TensorStructure) : StronglySorted cmp_lt l -> NoDup l.
Proof.
  induction 1 as [|x l _ IH Hall]; constructor; auto.
  intros Hx. rewrite Forall_forall in Hall. specialize (Hall x Hx).
  unfold cmp_lt in Hall. assert (cmp x x = Eq) by (apply ts_cmp_eq_iff; reflexivity).
  congruence.
Qed.

Lemma generate_sorted cfg D E out :
  generate_tensor_structures cfg D E = Some out -> StronglySorted cmp_lt out.
Proof.
  intros Hg. apply Sorted_StronglySorted; [intros x y z; apply ts_cmp_lt_trans|].
  apply generate_collect in Hg as [[_ ->]|(_ & pp & pe & ee & L & _ & _ & ->)]; [constructor|].
  apply insert_leaves_sorted. constructor.
Qed.

Lemma generate_member_ee cfg D E out t :
  generate_tensor_structures cfg D E = Some out -> In t out ->
  ee_contractions t = N.of_nat (count_ee (factors t)) /\ ee_contractions t = E.
Proof.
  intros Hg Ht.
  destruct (generate_member _ _ _ _ _ Hg Ht) as (pp & pe & ee & q & s' & _ & _ & _ & Hp & _ & Ha & ->).
  destruct (initial_Extends _ _ _ _ _ _ Hp) as (_ & Hne & _ & _ & _ & Hf & Hee & _).
  simpl. fold (ee_so_far s'). split.
  - rewrite Hee, (count_ee_perm _ _ (sort_perm _)), Hf. reflexivity.
  - unfold leaf_accepts in Ha. apply andb_prop in Ha as [Ha _].
    apply N.eqb_eq in Ha. rewrite Ha, Hne. reflexivity.
Qed.

(** [dfs_emit] inserting into the set equals sorting the accepted leaves,
    when no two of them have the same sorted factor sequence. *)
Lemma insert_leaves_fold L acc :
  NoDup (map factors acc ++ map leaf_key L) ->
  insert_leaves L acc =
  fold_left (fun o x => insert_sorted x o) (map (fun s => canonicalize (cur s)) L) acc.
Proof.
  unfold insert_leaves. revert acc.
  induction L as [|s L IH]; intros acc Hnd; simpl; [reflexivity|].
  rewrite set_insert_fresh.
  - apply IH. eapply Permutation_NoDup; [|exact Hnd]. apply Permutation_sym.
    eapply perm_trans; [apply Permutation_app_tail, Permutation_map, insert_sorted_perm|].
    simpl. apply Permutation_middle.
  - intros u Hu Heq. apply NoDup_remove_2 in Hnd. apply Hnd.
    apply in_or_app. left. change (leaf_key s) with (factors (canonicalize (cur s))).
    rewrite Heq. apply (in_map factors _ _ Hu).
Qed.

Lemma insert_leaves_sort L :
  NoDup (map leaf_key L) ->
  insert_leaves L [] = sort (map (fun s => canonicalize (cur s)) L).
Proof. intros Hnd. apply insert_leaves_fold. exact Hnd. Qed.

Lemma canonical_leaves_nodup L :
  NoDup (map leaf_key L) -> NoDup (sort (map (fun s => canonicalize (cur s)) L)).
Proof.
  intros Hnd. eapply Permutation_NoDup; [apply Permutation_sym, sort_perm|].
  apply (NoDup_map_inv factors). rewrite map_map. exact Hnd.
Qed.

Lemma extend_path_unrestricted q u :
  enforce_one_pol u = false -> exists u', extend_path u q = Some u'.
Proof.
  revert u; induction q as [|k q IH]; intros u Hu; simpl; [eauto|].
  destruct (extend_unrestricted u (nth k (catalog u) (sf_pp 0 0)) Hu) as (u1 & E).
  rewrite E. apply IH.
  apply extend_Extends in E. destruct E as (_ & _ & _ & Hen & _). congruence.
Qed.

Lemma TensorStructure_ext t u :
  factors t = factors u -> ee_contractions t = ee_contractions u -> t = u.
Proof. destruct t, u; simpl; intros -> ->; reflexivity. Qed.

Lemma generate_valid_factors_pattern n tr p1 p2 :
  generate_valid_factors (mkCfg n tr p1) = generate_valid_factors (mkCfg n tr p2).
Proof. rewrite !generate_valid_factors_eq. reflexivity. Qed.

Lemma generate_unrestricted_some n tr D E out :
  generate_tensor_structures (mkCfg n tr OnePerLeg) D E = Some out ->
  exists out', generate_tensor_structures (mkCfg n tr Unrestricted) D E = Some out'.
Proof.
  unfold generate_tensor_structures.
  destruct (D =? 0)%N; [eauto|]. destruct (D <? E)%N; [eauto|].
  rewrite (generate_valid_factors_pattern n tr OnePerLeg Unrestricted).
  destruct (generate_valid_factors _) as [[[pp pe] ee]|]; [|discriminate].
  intros _. cbv beta iota zeta. rewrite emit_collect.
  destruct (collect_some (S (N.to_nat D))
              (initial_state (mkCfg n tr Unrestricted) D E (pp ++ pe ++ ee)) 0 eq_refl)
    as (L & ->).
  simpl. eauto.
Qed.

(** ** The catalog for [n_legs <= 254] *)

Lemma generate_valid_factors_spec cfg :
  n_legs cfg < 255 ->
  let n := n_legs cfg in
  exists pp pe ee, generate_valid_factors cfg = Some (pp, pe, ee) /\
    StronglySorted cmp_lt pp /\ StronglySorted cmp_lt pe /\ StronglySorted cmp_lt ee /\
    (forall f, In f pp <->
       exists i j, f = sf_pp i j /\ 1 <= i /\ i < j /\ j <= n /\ i <> n /\ j <> n) /\
    (forall f, In f pe <->
       exists i j, f = sf_pe i j /\ 1 <= i <= n - 1 /\ 1 <= j <= n /\
         (forbids_self_dot (transversality cfg) = true -> i <> j) /\ ~ (i = 1 /\ j = n)) /\
    (forall f, In f ee <-> exists i j, f = sf_ee i j /\ 1 <= i /\ i < j /\ j <= n).
Proof.
  intros Hn n. rewrite generate_valid_factors_eq.
  replace (n_legs cfg <? 255) with true by (symmetry; apply Nat.ltb_lt; exact Hn).
  assert (Hin : forall (l : list ScalarFactor) x, In x (sort l) <-> In x l).
  { intros l x. split; intros Hx; eapply Permutation_in; try exact Hx;
      [apply sort_perm | apply Permutation_sym, sort_perm]. }
  assert (Hss : forall l : list ScalarFactor, NoDup l -> StronglySorted cmp_lt (sort l)).
  { intros l Hl. apply sorted_nodup_strict; [apply sort_sorted|].
    eapply Permutation_NoDup; [apply Permutation_sym, sort_perm|exact Hl]. }
  eexists _, _, _. split; [reflexivity|].
  split; [apply Hss, pp_list_nodup|]. split; [apply Hss, pe_list_nodup|].
  split; [apply Hss, ee_list_nodup|].
  split; [intros f; rewrite Hin; apply in_pp_list|].
  split; [intros f; rewrite Hin; apply in_pe_list|].
  intros f; rewrite Hin; apply in_ee_list.
Qed.

(** * The claims *)

(** C1: for [n = 4], ForbidPiDotEi and one-pol-per-leg, degree 3 with one EE
    contraction gives exactly 24 distinct structures, and degree 2 with two
    EE contractions gives exactly 3 distinct structures. *)
Theorem C1_concrete_counts :
  exists out1 out2,
    generate_tensor_structures cfg4 3 1 = Some out1 /\ length out1 = 24 /\ NoDup out1 /\
    generate_tensor_structures cfg4 2 2 = Some out2 /\ length out2 = 3 /\ NoDup out2.
Proof.
  destruct (generate_tensor_structures cfg4 3 1) as [out1|] eqn:H1;
    [|vm_compute in H1; discriminate].
  destruct (generate_tensor_structures cfg4 2 2) as [out2|] eqn:H2;
    [|vm_compute in H2; discriminate].
  exists out1, out2.
  split; [reflexivity|]. split; [vm_compute in H1; injection H1 as <-; reflexivity|].
  split; [exact (strict_ts_nodup _ (generate_sorted _ _ _ _ H1))|].
  split; [reflexivity|]. split; [vm_compute in H2; injection H2 as <-; reflexivity|].
  exact (strict_ts_nodup _ (generate_sorted _ _ _ _ H2)).
Qed.

(** C2 (amended): [dfs_emit] recurses with start index [i], not [i + 1]:
    every returned structure is the sorted list of the catalog factors at a
    non-decreasing (not strictly increasing) sequence of catalog indices. *)
Theorem C2_nondecreasing_indices cfg D E out t :
  generate_tensor_structures cfg D E = Some out -> In t out ->
  exists pp pe ee q,
    generate_valid_factors cfg = Some (pp, pe, ee) /\
    Sorted le q /\ Forall (fun k => k < length (pp ++ pe ++ ee)) q /\
    factors t = sort (map (cat_nth (pp ++ pe ++ ee)) q).
Proof.
  intros Hg Ht.
  destruct (generate_member _ _ _ _ _ Hg Ht)
    as (pp & pe & ee & q & s' & Hc & Hq & Hf & Hp & _ & _ & ->).
  exists pp, pe, ee, q.
  split; [exact Hc|]. split; [exact Hq|]. split; [exact Hf|].
  simpl. f_equal. apply (initial_Extends _ _ _ _ _ _ Hp).
Qed.

Lemma C2_nondecreasing_indices_witness :
  generate_tensor_structures GenConfig_default 4 1 = Some out_default_4_1 /\
  In (hd TensorStructure_new out_default_4_1) out_default_4_1 /\
  exists pp pe ee q,
    generate_valid_factors GenConfig_default = Some (pp, pe, ee) /\
    Sorted le q /\ Forall (fun k => k < length (pp ++ pe ++ ee)) q /\
    factors (hd TensorStructure_new out_default_4_1) = sort (map (cat_nth (pp ++ pe ++ ee)) q).
Proof.
  assert (Hg : generate_tensor_structures GenConfig_default 4 1 = Some out_default_4_1)
    by (vm_compute; reflexivity).
  assert (Ht : In (hd TensorStructure_new out_default_4_1) out_default_4_1)
    by (vm_compute; left; reflexivity).
  split; [exact Hg|]. split; [exact Ht|].
  exact (C2_nondecreasing_indices _ _ _ _ _ Hg Ht).
Defined.

(** C2: with the default configuration ([n = 3]), degree 4 and one EE
    contraction, a returned structure holds the factor [p1.p2] twice, so the
    indices along its path are not strictly increasing. *)
Lemma C2_repeated_factor :
  exists out t, generate_tensor_structures GenConfig_default 4 1 = Some out /\
    In t out /\ ~ NoDup (factors t).
Proof.
  exists out_default_4_1, (mkTS [sf_pp 1 2; sf_pp 1 2; sf_pe 1 2; sf_ee 1 3] 1).
  split; [vm_compute; reflexivity|].
  split; [vm_compute; left; reflexivity|].
  simpl. intros H. inversion H as [|x l Hx _]. apply Hx. left; reflexivity.
Qed.

(** C3: no two accepted leaves of the search have the same canonical
    structure: inserting the accepted leaves into the sorted set gives the
    same result as collecting them, then sorting and deduplicating once,
    and the number of leaf acceptances is the length of the result. *)
Theorem C3_collect_then_sort cfg D E :
  generate_tensor_structures cfg D E = generate_collect_then_sort cfg D E /\
  forall n, leaf_acceptances cfg D E = Some n ->
    exists out, generate_tensor_structures cfg D E = Some out /\ length out = n.
Proof.
  unfold generate_tensor_structures, generate_collect_then_sort, leaf_acceptances.
  destruct (D =? 0)%N.
  { split; [reflexivity|]. intros n [= <-]. exists []. auto. }
  destruct (D <? E)%N.
  { split; [reflexivity|]. intros n [= <-]. exists []. auto. }
  destruct (generate_valid_factors cfg) as [[[pp pe] ee]|] eqn:Hc;
    [|split; [reflexivity|discriminate]].
  cbv beta iota zeta. rewrite emit_collect.
  destruct (dfs_collect _ _ _) as [L|] eqn:HL; [|split; [reflexivity|discriminate]].
  assert (Hnd : NoDup (map leaf_key L))
    by exact (collect_nodup _ (initial_state cfg D E (pp ++ pe ++ ee)) _ _
                (catalog_nodup _ _ _ _ Hc) HL).
  simpl. rewrite (insert_leaves_sort _ Hnd). split.
  - unfold sort_dedup. rewrite dedup_nodup; [reflexivity|].
    apply canonical_leaves_nodup, Hnd.
  - intros n [= <-]. eexists. split; [reflexivity|].
    rewrite (Permutation_length (sort_perm _)), length_map. reflexivity.
Qed.

(** C5: under one-pol-per-leg, every returned structure has exactly [D]
    factors, and every leg [r] in [1..n] occurs exactly once as a
    polarization (once per PE factor [p_i.e_r], once per endpoint of an EE
    factor). *)
Theorem C5_one_pol_per_leg cfg D E out t :
  pol_pattern cfg = OnePerLeg ->
  generate_tensor_structures cfg D E = Some out -> In t out ->
  N.of_nat (length (factors t)) = D /\
  forall r, 1 <= r <= n_legs cfg -> touches r (factors t) = 1.
Proof.
  intros Hpol Hg Ht.
  destruct (generate_member _ _ _ _ _ Hg Ht)
    as (pp & pe & ee & q & s' & _ & _ & _ & Hp & Hd & Ha & ->).
  destruct (initial_Extends _ _ _ _ _ _ Hp) as (_ & _ & Hn & Hen & _ & Hf & _ & Hpc).
  rewrite Hpol in Hen. simpl.
  split.
  - rewrite (Permutation_length (sort_perm _)). exact Hd.
  - intros r Hr. rewrite (touches_perm _ _ _ (sort_perm _)).
    unfold leaf_accepts in Ha. rewrite Hen in Ha. simpl in Ha.
    apply andb_prop in Ha as [_ Ha]. apply andb_prop in Ha as [_ Ha].
    rewrite forallb_forall in Ha.
    assert (Hr' : In r (range_incl 1 (nlegs s'))) by (unfold range_incl; apply in_seq; lia).
    specialize (Ha r Hr'). apply N.eqb_eq in Ha.
    rewrite Hpc in Ha by exact Hpol. rewrite Hf. lia.
Qed.

Lemma C5_one_pol_per_leg_witness :
  pol_pattern cfg4 = OnePerLeg /\
  generate_tensor_structures cfg4 3 1 = Some out_4_3_1 /\ In ts_4_3_1 out_4_3_1 /\
  (N.of_nat (length (factors ts_4_3_1)) = 3%N /\
   forall r, 1 <= r <= n_legs cfg4 -> touches r (factors ts_4_3_1) = 1).
Proof.
  assert (Hg : generate_tensor_structures cfg4 3 1 = Some out_4_3_1) by (vm_compute; reflexivity).
  assert (Ht : In ts_4_3_1 out_4_3_1) by (vm_compute; left; reflexivity).
  split; [reflexivity|]. split; [exact Hg|]. split; [exact Ht|].
  exact (C5_one_pol_per_leg cfg4 3 1 _ _ eq_refl Hg Ht).
Defined.

(** C6: for the same legs and transversality, the structures returned
    under one-pol-per-leg are all returned under the unrestricted pattern. *)
Theorem C6_unrestricted_superset n tr D E outO :
  generate_tensor_structures (mkCfg n tr OnePerLeg) D E = Some outO ->
  exists outU, generate_tensor_structures (mkCfg n tr Unrestricted) D E = Some outU /\
    incl outO outU.
Proof.
  intros HO.
  destruct (generate_unrestricted_some _ _ _ _ _ HO) as (outU & HU).
  exists outU. split; [exact HU|]. intros t Ht.
  destruct (generate_member _ _ _ _ _ HO Ht)
    as (pp & pe & ee & q & s' & Hc & Hq & Hf & Hp & Hd & Ha & ->).
  destruct (initial_Extends _ _ _ _ _ _ Hp) as (Ht' & Hne & _ & _ & Hcat & Hfs & Hee & _).
  set (cat := pp ++ pe ++ ee) in *.
  set (u := initial_state (mkCfg n tr Unrestricted) D E cat).
  destruct (extend_path_unrestricted q u eq_refl) as (u' & Hu).
  destruct (initial_Extends _ _ _ _ _ _ Hu) as (Ut & Une & _ & _ & _ & Ufs & Uee & _).
  assert (Hcur : cur u' = cur s').
  { apply TensorStructure_ext; [congruence|].
    fold (ee_so_far u') (ee_so_far s'). congruence. }
  assert (HeeE : ee_so_far s' = E).
  { unfold leaf_accepts in Ha. apply andb_prop in Ha as [Ha _].
    apply N.eqb_eq in Ha. congruence. }
  rewrite (generate_valid_factors_pattern n tr OnePerLeg Unrestricted) in Hc.
  destruct (generate_collect _ _ _ _ HU) as [[HDE _]|(_ & pp' & pe' & ee' & LU & Hc' & HL & HoU)].
  { exfalso. destruct (generate_collect _ _ _ _ HO) as [[_ ->]|((HD0 & HED) & _)];
      [exact Ht|]. destruct HDE; lia. }
  rewrite Hc in Hc'. injection Hc' as <- <- <-.
  destruct (collect_complete (S (N.to_nat D)) q u 0 u' eq_refl) as (L' & HL' & Hin).
  - simpl. lia.
  - exact Hq.
  - eapply Forall_impl; [|exact Hf]. simpl. lia.
  - exact Hu.
  - unfold deg_so_far. rewrite Hcur, Ut. exact Hd.
  - rewrite Une, <- HeeE. unfold ee_so_far. rewrite Hcur. reflexivity.
  - unfold u, cat in HL'. rewrite HL in HL'. injection HL' as <-.
    destruct (insert_leaves_has LU [] u' Hin) as (t' & Ht'U & Hft').
    rewrite <- HoU in Ht'U.
    assert (Heq : t' = canonicalize (cur s')).
    { apply TensorStructure_ext.
      - rewrite Hft', Hcur. reflexivity.
      - rewrite (proj2 (generate_member_ee _ _ _ _ _ HU Ht'U)). simpl.
        fold (ee_so_far s'). symmetry. exact HeeE. }
    rewrite <- Heq. exact Ht'U.
Qed.

Lemma C6_unrestricted_superset_witness :
  generate_tensor_structures cfg4 3 1 = Some out_4_3_1 /\
  exists outU,
    generate_tensor_structures (mkCfg 4 Transversality.ForbidPiDotEi Unrestricted) 3 1
      = Some outU /\ incl out_4_3_1 outU.
Proof.
  assert (Hg : generate_tensor_structures cfg4 3 1 = Some out_4_3_1) by (vm_compute; reflexivity).
  split; [exact Hg|].
  exact (C6_unrestricted_superset 4 Transversality.ForbidPiDotEi 3 1 out_4_3_1 Hg).
Defined.

(** C7: the returned sequence is strictly increasing in the order of
    [TensorStructure] (lexicographic on the factor sequences), hence has no
    repeated element, and the factors of every returned structure are
    non-decreasing in the order of [ScalarFactor]. *)
Theorem C7_sorted_output cfg D E out :
  generate_tensor_structures cfg D E = Some out ->
  StronglySorted cmp_lt out /\ NoDup out /\
  forall t, In t out -> Sorted cmp_le (factors t).
Proof.
  intros Hg. pose proof (generate_sorted _ _ _ _ Hg) as Hs.
  split; [exact Hs|]. split; [exact (strict_ts_nodup _ Hs)|].
  intros t Ht.
  destruct (generate_member _ _ _ _ _ Hg Ht) as (_ & _ & _ & _ & s' & _ & _ & _ & _ & _ & _ & ->).
  apply sort_sorted.
Qed.

Lemma C7_sorted_output_witness :
  generate_tensor_structures cfg4 3 1 = Some out_4_3_1 /\
  (StronglySorted cmp_lt out_4_3_1 /\ NoDup out_4_3_1 /\
   forall t, In t out_4_3_1 -> Sorted cmp_le (factors t)).
Proof.
  assert (Hg : generate_tensor_structures cfg4 3 1 = Some out_4_3_1) by (vm_compute; reflexivity).
  split; [exact Hg|]. exact (C7_sorted_output cfg4 3 1 out_4_3_1 Hg).
Defined.

(** C8: a target degree of 0, or more EE contractions than the target
    degree, gives the empty sequence (and no failure). *)
Theorem C8_degenerate_inputs cfg D E :
  (D = 0 \/ D < E)%N -> generate_tensor_structures cfg D E = Some [].
Proof.
  intros HD. unfold generate_tensor_structures.
  destruct HD as [->|HDE]; [reflexivity|].
  destruct (D =? 0)%N; [reflexivity|].
  replace (D <? E)%N with true by (symmetry; apply N.ltb_lt; exact HDE).
  reflexivity.
Qed.

Lemma C8_degenerate_inputs_witness :
  (2 < 3)%N /\ generate_tensor_structures GenConfig_default 2 3 = Some [].
Proof.
  split; [reflexivity|].
  apply (C8_degenerate_inputs GenConfig_default 2 3). right. reflexivity.
Defined.

(** C9: the cached [ee_contractions] of every returned structure is the
    number of its EE factors, and that number is the requested [E]. *)
Theorem C9_ee_cache cfg D E out t :
  generate_tensor_structures cfg D E = Some out -> In t out ->
  ee_contractions t = N.of_nat (count_ee (factors t)) /\ ee_contractions t = E.
Proof. intros Hg Ht. exact (generate_member_ee _ _ _ _ _ Hg Ht). Qed.

Lemma C9_ee_cache_witness :
  generate_tensor_structures cfg4 3 1 = Some out_4_3_1 /\ In ts_4_3_1 out_4_3_1 /\
  (ee_contractions ts_4_3_1 = N.of_nat (count_ee (factors ts_4_3_1)) /\
   ee_contractions ts_4_3_1 = 1%N).
Proof.
  assert (Hg : generate_tensor_structures cfg4 3 1 = Some out_4_3_1) by (vm_compute; reflexivity).
  assert (Ht : In ts_4_3_1 out_4_3_1) by (vm_compute; left; reflexivity).
  split; [exact Hg|]. split; [exact Ht|].
  exact (C9_ee_cache cfg4 3 1 _ _ Hg Ht).
Defined.

(** C4: for [n_legs = 255] the catalog builder fails whatever the
    transversality and pattern: the inner range [(i + 1)..=n] overflows
    [u8] at [i = 255] (a panic in a debug build). For [n_legs <= 254] the
    lists are as described, see [generate_valid_factors_spec]. *)
Theorem C4_catalog_overflow_255 tr pat :
  generate_valid_factors (mkCfg 255 tr pat) = None.
Proof. rewrite generate_valid_factors_eq. reflexivity. Qed.

(** C10: with [n_legs = 0], one-pol-per-leg, target degree [2^31] and no EE
    contraction, the search fails instead of returning the empty sequence:
    [remain * 2] overflows [u32] at the root (a panic in a debug build).
    Below [2^31], or under the unrestricted pattern, the result is empty,
    see [generate_no_legs]. *)
Theorem C10_no_legs_overflow :
  generate_tensor_structures (mkCfg 0 Transversality.ForbidPiDotEi OnePerLeg) 2147483648 0
  = None.
Proof. apply generate_one_pol_overflow; [reflexivity|lia|lia|simpl; lia]. Qed.

(** ** Sizes of the catalog lists *)

Ltac nat_bool_cases :=
  repeat match goal with
  | |- context [?x <=? ?y] => destruct (Nat.leb_spec x y)
  | |- context [?x <? ?y] => destruct (Nat.ltb_spec x y)
  | |- context [?x =? ?y] => destruct (Nat.eqb_spec x y)
  end.

Lemma flat_map_keep_length {B} (p : nat -> bool) (g : nat -> B) l :
  length (flat_map (fun j => if p j then [] else [g j]) l) =
  length (filter (fun j => negb (p j)) l).
Proof. induction l as [|j l IH]; simpl; [reflexivity|]. destruct (p j); simpl; lia. Qed.

Lemma sum_app (l1 l2 : list nat) : list_sum (l1 ++ l2) = list_sum l1 + list_sum l2.
Proof. induction l1; simpl; lia. Qed.

Lemma length_flat_map_sum {A B} (f : A -> list B) l :
  length (flat_map f l) = list_sum (map (fun x => length (f x)) l).
Proof. induction l as [|x l IH]; simpl; [reflexivity|]. rewrite length_app, IH. reflexivity. Qed.

Lemma filter_seq_skip1 m k : forall a,
  length (filter (fun j => negb (j =? m)) (seq a k)) =
  k - (if (a <=? m) && (m <? a + k) then 1 else 0).
Proof.
  induction k as [|k IH]; intros a; simpl.
  - destruct (a <=? m), (m <? a + 0); reflexivity.
  - destruct (Nat.eqb_spec a m); simpl; rewrite IH;
    destruct (Nat.leb_spec a m), (Nat.ltb_spec m (a + S k)),
      (Nat.leb_spec (S a) m), (Nat.ltb_spec m (S a + k)); simpl; lia.
Qed.

Lemma filter_seq_skip2 m1 m2 k : m1 <> m2 -> forall a,
  length (filter (fun j => negb ((j =? m1) || (j =? m2))) (seq a k)) =
  k - (if (a <=? m1) && (m1 <? a + k) then 1 else 0)
    - (if (a <=? m2) && (m2 <? a + k) then 1 else 0).
Proof.
  intros Hm. induction k as [|k IH]; intros a; simpl.
  - destruct (a <=? m1), (m1 <? a + 0), (a <=? m2), (m2 <? a + 0); reflexivity.
  - destruct (Nat.eqb_spec a m1), (Nat.eqb_spec a m2); simpl; rewrite IH;
    destruct (Nat.leb_spec a m1), (Nat.ltb_spec m1 (a + S k)),
      (Nat.leb_spec (S a) m1), (Nat.ltb_spec m1 (S a + k)),
      (Nat.leb_spec a m2), (Nat.ltb_spec m2 (a + S k)),
      (Nat.leb_spec (S a) m2), (Nat.ltb_spec m2 (S a + k)); simpl; lia.
Qed.

Lemma sum_tri k : forall a, 2 * list_sum (map (fun i => a + k - i) (seq a k)) = k * (k + 1).
Proof.
  induction k as [|k IH]; intros a; simpl; [reflexivity|].
  specialize (IH (S a)).
  rewrite (map_ext_in (fun i => a + S k - i) (fun i => S a + k - i)) by (intros; lia).
  nia.
Qed.

Lemma sum_const c l : list_sum (map (fun _ : nat => c) l) = length l * c.
Proof. induction l; simpl; lia. Qed.

Lemma pp_list_length n : 2 * length (pp_list n) = (n - 1) * (n - 2).
Proof.
  unfold pp_list, range_incl. rewrite length_flat_map_sum.
  replace (S n - 1) with n by lia.
  rewrite (map_ext_in _ (fun i => n - 1 - i)).
  2:{ intros i Hi. apply in_seq in Hi. unfold pp_row_list, range_incl.
      rewrite flat_map_keep_length.
      destruct (Nat.eqb_spec i n) as [->|Hin]; simpl.
      - assert (H0 : forall l : list nat, filter (fun _ => false) l = [])
          by (induction l; auto).
        rewrite H0. simpl. lia.
      - rewrite filter_seq_skip1. nat_bool_cases; simpl; lia. }
  destruct (Nat.lt_ge_cases n 2) as [Hn|Hn].
  - destruct n as [|[|]]; simpl; lia.
  - replace n with ((n - 2) + 2) at 1 by lia. rewrite seq_app, map_app, sum_app.
    rewrite (map_ext_in (fun i => n - 1 - i) (fun i => 1 + (n - 2) - i)) by (intros; lia).
    pose proof (sum_tri (n - 2) 1) as T.
    remember (list_sum (map (fun i => 1 + (n - 2) - i) (seq 1 (n - 2)))) as X.
    simpl. nia.
Qed.

Lemma ee_list_length n : 2 * length (ee_list n) = n * (n - 1).
Proof.
  unfold ee_list, range_incl. rewrite length_flat_map_sum.
  replace (S n - 1) with n by lia.
  rewrite (map_ext_in _ (fun i => n - i)).
  2:{ intros i Hi. unfold ee_row_list, range_incl.
      rewrite length_flat_map_sum, (map_ext_in _ (fun _ => 1)) by reflexivity.
      rewrite sum_const, length_seq. lia. }
  destruct n as [|n]; [reflexivity|].
  replace (S n) with (n + 1) at 1 by lia. rewrite seq_app, map_app, sum_app.
  rewrite (map_ext_in (fun i => S n - i) (fun i => 1 + n - i)) by (intros; lia).
  pose proof (sum_tri n 1) as T.
  remember (list_sum (map (fun i => 1 + n - i) (seq 1 n))) as X.
  simpl. nia.
Qed.

Lemma pe_row_length tr n i :
  1 <= i < n ->
  length (pe_row_list tr n i) =
  n - (if forbids_self_dot tr then 1 else 0) - (if i =? 1 then 1 else 0).
Proof.
  intros Hi. unfold pe_row_list, range_incl.
  rewrite (flat_map_ext _ (fun j =>
             if (forbids_self_dot tr && (i =? j)) || ((j =? n) && (i =? 1))
             then [] else [sf_pe i j])).
  2:{ intros j. destruct (forbids_self_dot tr && (i =? j)), ((j =? n) && (i =? 1)); reflexivity. }
  rewrite flat_map_keep_length. replace (S n - 1) with n by lia.
  destruct (forbids_self_dot tr), (Nat.eqb_spec i 1) as [->|Hi1]; cbn [andb orb negb].
  - rewrite (filter_ext _ (fun j => negb ((j =? 1) || (j =? n)))).
    2:{ intros j. nat_bool_cases; simpl; reflexivity || lia. }
    rewrite filter_seq_skip2 by lia. nat_bool_cases; simpl; lia.
  - rewrite (filter_ext _ (fun j => negb (j =? i))).
    2:{ intros j. nat_bool_cases; simpl; reflexivity || lia. }
    rewrite filter_seq_skip1. nat_bool_cases; simpl; lia.
  - rewrite (filter_ext _ (fun j => negb (j =? n))).
    2:{ intros j. nat_bool_cases; simpl; reflexivity || lia. }
    rewrite filter_seq_skip1. nat_bool_cases; simpl; lia.
  - rewrite (filter_ext _ (fun _ => true)).
    2:{ intros j. nat_bool_cases; simpl; reflexivity || lia. }
    rewrite filter_true, length_seq. lia.
Qed.

Lemma pe_list_length tr n :
  length (pe_list tr n) =
  (n - 1) * (n - (if forbids_self_dot tr then 1 else 0)) - (if 2 <=? n then 1 else 0).
Proof.
  unfold pe_list, range_incl. rewrite length_flat_map_sum.
  destruct n as [|[|m]]; [reflexivity|reflexivity|].
  replace (S (S (S m)) - 1) with (S (S m)) by lia.
  change (seq 1 (S (S m))) with (1 :: seq 2 (S m)).
  rewrite seq_S, map_cons, map_app.
  change (list_sum (?x :: ?l)) with (x + list_sum l). rewrite sum_app.
  cbn [map list_sum Nat.eqb Nat.add].
  rewrite Nat.eqb_refl.
  rewrite (pe_row_length tr (S (S m)) 1) by lia.
  rewrite (map_ext_in _ (fun _ => S (S m) - (if forbids_self_dot tr then 1 else 0))).
  2:{ intros i Hi. apply in_seq in Hi.
      replace (i =? S (S m)) with false by (symmetry; apply Nat.eqb_neq; lia).
      rewrite pe_row_length by lia.
      replace (i =? 1) with false by (symmetry; apply Nat.eqb_neq; lia). lia. }
  rewrite sum_const, length_seq. simpl.
  destruct (forbids_self_dot tr); nia.
Qed.

(** ** The undo steps of the loop of [dfs_emit] *)

Lemma list_set_set {A} (l : list A) k v w : list_set (list_set l k v) k w = list_set l k w.
Proof. revert k; induction l as [|x l IH]; intros [|k]; simpl; f_equal; auto. Qed.

Lemma list_set_nth {A} (l : list A) k d : list_set l k (nth k l d) = l.
Proof. revert k; induction l as [|x l IH]; intros [|k]; simpl; f_equal; auto. Qed.

Lemma list_N_eq_nth (l1 l2 : list N) :
  length l1 = length l2 -> (forall r, nth r l1 0%N = nth r l2 0%N) -> l1 = l2.
Proof. intros Hl Hn. apply (nth_ext _ _ 0%N 0%N Hl). intros r _. apply Hn. Qed.

Lemma pc_incr_some pc k : k < length pc -> exists pc', pc_incr pc k = Some pc'.
Proof. unfold pc_incr. intros Hk. apply Nat.ltb_lt in Hk. rewrite Hk. eauto. Qed.

Lemma pc_decr_incr pc k pc' : pc_incr pc k = Some pc' -> pc_decr pc' k = Some pc.
Proof.
  unfold pc_incr, pc_decr. destruct (Nat.ltb_spec k (length pc)) as [Hk|]; [|discriminate].
  intros [= <-]. rewrite length_list_set.
  replace (k <? length pc) with true by (symmetry; apply Nat.ltb_lt; exact Hk).
  rewrite nth_list_set, Nat.eqb_refl by exact Hk.
  replace ((nth k pc 0 + 1 =? 0)%N) with false by (symmetry; apply N.eqb_neq; lia).
  rewrite list_set_set. replace (nth k pc 0 + 1 - 1)%N with (nth k pc 0%N) by lia.
  rewrite list_set_nth. reflexivity.
Qed.

Lemma pc_incr_comm pc k1 k2 p1 p2 :
  pc_incr pc k1 = Some p1 -> pc_incr p1 k2 = Some p2 ->
  exists q1, pc_incr pc k2 = Some q1 /\ pc_incr q1 k1 = Some p2.
Proof.
  intros H1 H2.
  pose proof (pc_incr_spec _ _ _ H1) as (L1 & K1 & N1).
  pose proof (pc_incr_spec _ _ _ H2) as (L2 & K2 & N2).
  destruct (pc_incr_some pc k2) as (q1 & Q1); [lia|].
  pose proof (pc_incr_spec _ _ _ Q1) as (M1 & _ & R1).
  destruct (pc_incr_some q1 k1) as (q2 & Q2); [lia|].
  pose proof (pc_incr_spec _ _ _ Q2) as (M2 & _ & R2).
  exists q1. split; [exact Q1|]. rewrite Q2. f_equal.
  apply list_N_eq_nth; [lia|]. intros r.
  rewrite R2, R1, N2, N1. lia.
Qed.

Lemma u32_decr_succ x : u32_decr (x + 1) = Some x.
Proof.
  unfold u32_decr. replace ((x + 1 =? 0)%N) with false by (symmetry; apply N.eqb_neq; lia).
  f_equal. lia.
Qed.

(** * Further properties of the code *)

(** [count_valid_factors]: for [n <= 254] legs, [(n-1)(n-2)/2] PP factors
    (pairs of legs other than [n]), [(n-1) n - 1] PE factors without
    transversality and [(n-1)(n-1) - 1] with it (one fewer for [n = 1]),
    and [n(n-1)/2] EE factors. *)
Theorem count_valid_factors_closed_form cfg :
  n_legs cfg < 255 ->
  let n := n_legs cfg in
  count_valid_factors cfg =
  Some (mkCounts ((n - 1) * (n - 2) / 2)
                 ((n - 1) * (n - (if forbids_self_dot (transversality cfg) then 1 else 0))
                  - (if 2 <=? n then 1 else 0))
                 (n * (n - 1) / 2)).
Proof.
  intros Hn n. unfold count_valid_factors. rewrite generate_valid_factors_eq.
  replace (n_legs cfg <? 255) with true by (symmetry; apply Nat.ltb_lt; exact Hn).
  rewrite !(Permutation_length (sort_perm _)).
  rewrite <- pp_list_length, <- ee_list_length, pe_list_length.
  rewrite !(Nat.mul_comm 2), !Nat.div_mul by lia. reflexivity.
Qed.

Lemma count_valid_factors_closed_form_witness :
  n_legs cfg4 < 255 /\ count_valid_factors cfg4 = Some (mkCounts 3 8 6).
Proof.
  split; [simpl; lia|].
  exact (count_valid_factors_closed_form cfg4 ltac:(simpl; lia)).
Defined.

(** [remove_polarizations] undoes [add_polarizations]: after a successful
    [add_polarizations pc f], removing the same factor gives back [pc]
    (and never underflows or indexes out of bounds). *)
Theorem remove_add_polarizations pc f pc' :
  add_polarizations pc f = Some pc' -> remove_polarizations pc' f = Some pc.
Proof.
  unfold add_polarizations, remove_polarizations.
  destruct (kind f).
  - intros [= <-]. reflexivity.
  - apply pc_decr_incr.
  - destruct (pc_incr pc (a f)) as [p1|] eqn:H1; [|discriminate]. intros H2.
    destruct (pc_incr_comm _ _ _ _ _ H1 H2) as (q1 & Q1 & Q2).
    rewrite (pc_decr_incr _ _ _ Q2). exact (pc_decr_incr _ _ _ Q1).
Qed.

Lemma remove_add_polarizations_witness :
  add_polarizations [0; 0; 0; 0; 0]%N (sf_ee 1 3) = Some [0; 1; 0; 1; 0]%N /\
  remove_polarizations [0; 1; 0; 1; 0]%N (sf_ee 1 3) = Some [0; 0; 0; 0; 0]%N.
Proof.
  split; [reflexivity|]. apply remove_add_polarizations. reflexivity.
Defined.

(** The statements after the recursive call of [dfs_emit] undo the
    statements before it: from the extended state, removing the
    polarizations, decrementing the PE and EE counts and popping the factor
    gives back the state the loop started the iteration with. *)
Theorem undo_extend s f s' : extend s f = Some s' -> undo s' f = Some s.
Proof.
  destruct s as [td en nl eo cat [fs ee] pe pc]. unfold extend, undo.
  cbn [enforce_one_pol pol_count pe_so_far cur factors ee_contractions
       target_deg ee_needed nlegs catalog].
  destruct eo.
  - destruct (add_polarizations pc f) as [pc'|] eqn:Ha; [|discriminate].
    intros [= <-]. cbn [enforce_one_pol pol_count pe_so_far cur factors ee_contractions
       target_deg ee_needed nlegs catalog].
    rewrite (remove_add_polarizations _ _ _ Ha).
    destruct (is_pe f); [rewrite u32_decr_succ|];
      (destruct (is_ee f); [rewrite u32_decr_succ|]);
      cbn [fst snd]; rewrite removelast_last; reflexivity.
  - intros [= <-]. cbn [enforce_one_pol pol_count pe_so_far cur factors ee_contractions
       target_deg ee_needed nlegs catalog fst snd].
    destruct (is_ee f); [rewrite u32_decr_succ|]; rewrite removelast_last; reflexivity.
Qed.

Lemma undo_extend_witness :
  exists s', extend (initial_state cfg4 3 1 []) (sf_ee 1 3) = Some s' /\
    undo s' (sf_ee 1 3) = Some (initial_state cfg4 3 1 []).
Proof.
  eexists. split; [reflexivity|]. apply undo_extend. reflexivity.
Defined.

(** ** When the search fails *)

Lemma add_polarizations_some n pc f :
  length pc = n + 1 -> legs_ok n f ->
  exists pc', add_polarizations pc f = Some pc' /\ length pc' = n + 1.
Proof.
  unfold legs_ok, add_polarizations. intros Hl.
  destruct (kind f).
  - intros _. eauto.
  - intros Hb. destruct (pc_incr_some pc (b f)) as (pc' & H); [lia|].
    rewrite H. exists pc'. split; [reflexivity|].
    apply pc_incr_spec in H as (-> & _). exact Hl.
  - intros [Ha Hb]. destruct (pc_incr_some pc (a f)) as (p1 & H1); [lia|].
    rewrite H1. pose proof (pc_incr_spec _ _ _ H1) as (L1 & _).
    destruct (pc_incr_some p1 (b f)) as (p2 & H2); [lia|].
    exists p2. split; [exact H2|].
    apply pc_incr_spec in H2 as (-> & _). lia.
Qed.

Lemma extend_search_ok s f :
  search_ok s -> In f (catalog s) -> exists s', extend s f = Some s' /\ search_ok s'.
Proof.
  unfold search_ok, extend. intros Hok Hf.
  destruct (enforce_one_pol s) eqn:Hen.
  - destruct (Hok eq_refl) as (Ht & Hl & Hc).
    destruct (add_polarizations_some _ _ _ Hl (Hc f Hf)) as (pc' & -> & Hl').
    eexists. split; [reflexivity|]. intros _. simpl. auto.
  - eexists. split; [reflexivity|]. simpl. discriminate.
Qed.

Lemma one_pol_prunes_no_panic s :
  (target_deg s < 2147483648)%N -> (deg_so_far s <= target_deg s)%N ->
  one_pol_prunes s <> Panic.
Proof.
  intros Ht Hd. unfold one_pol_prunes.
  destruct (existsb _ _); [discriminate|].
  replace (u32_max <? (target_deg s - deg_so_far s) * 2)%N with false
    by (symmetry; apply N.ltb_ge; unfold u32_max; lia).
  destruct (_ <? _)%N; [discriminate|]. destruct (_ <? _)%N; discriminate.
Qed.

Lemma collect_loop_some_ok rec s :
  search_ok s ->
  (forall s1 i, search_ok s1 -> exists L, rec s1 i = Some L) ->
  forall rest i, incl rest (catalog s) -> exists L, collect_loop rec s i rest = Some L.
Proof.
  intros Hok Hrec rest; induction rest as [|f rest IH]; intros i Hincl; simpl; [eauto|].
  destruct (extend_search_ok s f Hok) as (s1 & E1 & Hok1); [apply Hincl; left; reflexivity|].
  rewrite E1. destruct (Hrec s1 i Hok1) as [L1 ->].
  destruct (IH (S i)) as [L2 ->]; [intros x Hx; apply Hincl; right; exact Hx|]. eauto.
Qed.

Lemma incl_skipn {A} (l : list A) k : incl (skipn k l) l.
Proof.
  revert k; induction l as [|x l IH]; intros [|k]; simpl; try (intros y Hy; exact Hy).
  intros y Hy. right. apply (IH k), Hy.
Qed.

Lemma collect_some_ok fuel : forall s idx,
  search_ok s -> exists L, dfs_collect fuel s idx = Some L.
Proof.
  induction fuel as [|fuel IH]; intros s idx Hok; simpl; [eauto|].
  destruct ((target_deg s <? deg_so_far s)%N || _) eqn:Hc; [eauto|].
  apply orb_false_iff in Hc as [Hc _]. apply N.ltb_ge in Hc.
  assert (Hp : (if enforce_one_pol s then one_pol_prunes s else Proceed) <> Panic).
  { destruct (enforce_one_pol s) eqn:Hen; [|discriminate].
    apply one_pol_prunes_no_panic; [apply (Hok Hen)|exact Hc]. }
  destruct (if enforce_one_pol s then one_pol_prunes s else Proceed); [|eauto|contradiction].
  destruct (deg_so_far s =? target_deg s)%N; [eauto|].
  apply collect_loop_some_ok; [exact Hok| |apply incl_skipn].
  intros s1 i Hok1. apply IH, Hok1.
Qed.

Lemma generate_some cfg D E :
  n_legs cfg < 255 -> (pol_pattern cfg = Unrestricted \/ (D < 2147483648)%N) ->
  exists out, generate_tensor_structures cfg D E = Some out.
Proof.
  intros Hn Hsafe. unfold generate_tensor_structures.
  destruct (D =? 0)%N; [eauto|]. destruct (D <? E)%N; [eauto|].
  destruct (generate_valid_factors_spec cfg Hn)
    as (pp & pe & ee & Hc & _ & _ & _ & Hpp & Hpe & Hee).
  rewrite Hc. cbv beta iota zeta. rewrite emit_collect.
  destruct (collect_some_ok (S (N.to_nat D)) (initial_state cfg D E (pp ++ pe ++ ee)) 0)
    as (L & ->).
  - unfold search_ok, initial_state. simpl. intros Hen.
    split; [destruct Hsafe as [Hs|Hs]; [rewrite Hs in Hen; discriminate|exact Hs]|].
    split; [apply repeat_length|].
    intros f Hf. apply in_app_or in Hf as [Hf|Hf]; [|apply in_app_or in Hf as [Hf|Hf]].
    + apply Hpp in Hf as (i & j & -> & _). exact I.
    + apply Hpe in Hf as (i & j & -> & _ & Hj & _). unfold legs_ok; simpl. lia.
    + apply Hee in Hf as (i & j & -> & Hij). unfold legs_ok; simpl. split; lia.
  - simpl. eauto.
Qed.

Lemma generate_catalog_overflow cfg D E :
  255 <= n_legs cfg -> D <> 0%N -> (E <= D)%N -> generate_tensor_structures cfg D E = None.
Proof.
  intros Hn HD0 HDE. unfold generate_tensor_structures.
  replace (D =? 0)%N with false by (symmetry; apply N.eqb_neq; exact HD0).
  replace (D <? E)%N with false by (symmetry; apply N.ltb_ge; exact HDE).
  rewrite generate_valid_factors_eq.
  replace (n_legs cfg <? 255) with false by (symmetry; apply Nat.ltb_ge; exact Hn).
  reflexivity.
Qed.

(** [generate_tensor_structures] fails (panics) exactly in two cases, both
    past the degenerate-input early returns ([D <> 0], [E <= D]): the
    catalog builder overflows [u8] ([n_legs = 255]), or one-pol-per-leg
    with [D >= 2^31] overflows [remain * 2] at the root. Every other input
    gives a result. *)
Theorem generate_fails_iff cfg D E :
  generate_tensor_structures cfg D E = None <->
  (D <> 0 /\ E <= D)%N /\
  (255 <= n_legs cfg \/ (pol_pattern cfg = OnePerLeg /\ 2147483648 <= D)%N).
Proof.
  split.
  - intros Hg.
    assert (HD : (D <> 0 /\ E <= D)%N).
    { unfold generate_tensor_structures in Hg.
      destruct (N.eqb_spec D 0); [discriminate|].
      destruct (N.ltb_spec D E); [discriminate|]. auto. }
    split; [exact HD|].
    destruct (Nat.lt_ge_cases (n_legs cfg) 255) as [Hn|Hn]; [|left; exact Hn].
    right. destruct (pol_pattern cfg) eqn:Hp.
    + destruct (generate_some cfg D E Hn (or_introl Hp)) as (out & Ho).
      congruence.
    + split; [reflexivity|].
      destruct (N.lt_ge_cases D 2147483648) as [HD'|HD']; [|exact HD'].
      destruct (generate_some cfg D E Hn (or_intror HD')) as (out & Ho).
      congruence.
  - intros ((HD0 & HDE) & [Hn|(Hp & HD)]).
    + exact (generate_catalog_overflow cfg D E Hn HD0 HDE).
    + destruct (Nat.lt_ge_cases (n_legs cfg) 255) as [Hn|Hn].
      * exact (generate_one_pol_overflow cfg D E Hp HD HDE Hn).
      * exact (generate_catalog_overflow cfg D E Hn HD0 HDE).
Qed.

(** ** Sorting an already sorted list, and uniqueness of the sorted order *)

Section SortUnique.
Context {A : Type} `{Ord A} `{!OrdLaws A}.

Lemma cmp_le_trans (x y z : A) : cmp_le x y -> cmp_le y z -> cmp_le x z.
Proof.
  unfold cmp_le. intros Hxy Hyz.
  destruct (cmp x y) eqn:E1; try contradiction;
  destruct (cmp y z) eqn:E2; try contradiction.
  - apply cmp_eq_iff in E1, E2. subst. rewrite (proj2 (cmp_eq_iff z z) eq_refl). discriminate.
  - apply cmp_eq_iff in E1. subst. rewrite E2. discriminate.
  - apply cmp_eq_iff in E2. subst. rewrite E1. discriminate.
  - rewrite (cmp_lt_trans _ _ _ E1 E2). discriminate.
Qed.

Lemma cmp_le_antisym (x y : A) : cmp_le x y -> cmp_le y x -> x = y.
Proof.
  unfold cmp_le. intros H1 H2. rewrite cmp_antisym in H2.
  apply cmp_eq_iff. destruct (cmp x y); simpl in *; congruence.
Qed.

Lemma insert_sorted_last (x : A) (acc : list A) :
  (forall y, In y acc -> cmp_le y x) -> insert_sorted x acc = acc ++ [x].
Proof.
  induction acc as [|y acc IH]; simpl; intros Hle; [reflexivity|].
  assert (Hxy : cmp x y <> Lt).
  { intros E. apply (Hle y (or_introl eq_refl)). rewrite cmp_antisym, E. reflexivity. }
  destruct (cmp x y); [| contradiction |];
    rewrite IH by (intros z Hz; apply Hle; right; exact Hz); reflexivity.
Qed.

Lemma StronglySorted_app_rel (R : A -> A -> Prop) (l1 l2 : list A) :
  StronglySorted R (l1 ++ l2) -> forall y z, In y l1 -> In z l2 -> R y z.
Proof.
  induction l1 as [|x l1 IH]; simpl; intros Hs y z Hy Hz; [contradiction|].
  apply StronglySorted_inv in Hs as [Hs Hf].
  destruct Hy as [<-|Hy].
  - rewrite Forall_forall in Hf. apply Hf, in_or_app. right; exact Hz.
  - apply IH; assumption.
Qed.

Lemma sort_sorted_id (l : list A) : Sorted cmp_le l -> sort l = l.
Proof.
  intros Hs. apply (Sorted_StronglySorted cmp_le_trans) in Hs.
  unfold sort. change l with ([] ++ l) in Hs at 1. change l with ([] ++ l) at 2.
  revert Hs. generalize (@nil A). induction l as [|x l IH]; intros acc Hs; simpl.
  - rewrite app_nil_r. reflexivity.
  - rewrite insert_sorted_last.
    + rewrite IH; [rewrite <- app_assoc; reflexivity|]. rewrite <- app_assoc. exact Hs.
    + intros y Hy. apply (StronglySorted_app_rel _ _ _ Hs); [exact Hy|left; reflexivity].
Qed.

Lemma sorted_perm_eq (l1 l2 : list A) :
  Sorted cmp_le l1 -> Sorted cmp_le l2 -> Permutation l1 l2 -> l1 = l2.
Proof.
  intros H1 H2. apply (Sorted_StronglySorted cmp_le_trans) in H1, H2.
  revert l2 H2; induction l1 as [|x l1 IH]; intros l2 H2 Hp.
  - symmetry. apply Permutation_nil, Hp.
  - destruct l2 as [|y l2]; [apply Permutation_sym, Permutation_nil in Hp; discriminate|].
    apply StronglySorted_inv in H1 as [S1 F1]. apply StronglySorted_inv in H2 as [S2 F2].
    rewrite Forall_forall in F1, F2.
    assert (Hxy : x = y).
    { assert (Hx : In x (y :: l2)) by (eapply Permutation_in; [exact Hp|left; reflexivity]).
      assert (Hy : In y (x :: l1))
        by (eapply Permutation_in; [apply Permutation_sym, Hp|left; reflexivity]).
      destruct Hx as [->|Hx]; [reflexivity|]. destruct Hy as [->|Hy]; [reflexivity|].
      apply cmp_le_antisym; [apply F1, Hy|apply F2, Hx]. }
    subst y. f_equal. apply IH; [exact S1|exact S2|].
    apply Permutation_cons_inv in Hp. exact Hp.
Qed.
End SortUnique.

(** [canonicalize] is a normal form: it leaves a structure unchanged exactly
    when its factors are already in non-decreasing [ScalarFactor] order, so
    applying it twice is applying it once. *)
Theorem canonicalize_normal_form t :
  canonicalize (canonicalize t) = canonicalize t /\
  (canonicalize t = t <-> Sorted cmp_le (factors t)).
Proof.
  split.
  - unfold canonicalize. simpl. rewrite sort_sorted_id by apply sort_sorted. reflexivity.
  - split.
    + intros <-. apply sort_sorted.
    + intros Hs. destruct t as [fs ee]. unfold canonicalize. simpl in *.
      rewrite sort_sorted_id by exact Hs. reflexivity.
Qed.

(** Two structures have canonical forms that compare [Equal] (the test the
    result set uses to merge them) exactly when their factor lists are
    permutations of each other: the canonical form depends only on the
    multiset of factors. *)
Theorem canonicalize_cmp_eq_iff_perm t u :
  cmp (canonicalize t) (canonicalize u) = Eq <-> Permutation (factors t) (factors u).
Proof.
  rewrite ts_cmp_eq_iff. unfold canonicalize. simpl. split.
  - intros Hs. eapply perm_trans; [apply Permutation_sym, sort_perm|].
    rewrite Hs. apply sort_perm.
  - intros Hp. apply sorted_perm_eq; [apply sort_sorted|apply sort_sorted|].
    eapply perm_trans; [apply sort_perm|].
    eapply perm_trans; [exact Hp|apply Permutation_sym, sort_perm].
Qed.

(** ** The unrestricted search returns every multiset of catalog factors *)

Lemma indices_of (cat fs : list ScalarFactor) :
  incl fs cat ->
  exists q0, Forall (fun k => k < length cat) q0 /\ map (cat_nth cat) q0 = fs.
Proof.
  induction fs as [|x fs IH]; intros Hincl; [exists []; auto|].
  destruct (In_nth cat x (sf_pp 0 0) (Hincl x (or_introl eq_refl))) as (k & Hk & Hx).
  destruct IH as (q0 & Hq0 & Hm); [intros y Hy; apply Hincl; right; exact Hy|].
  exists (k :: q0). split; [constructor; assumption|]. simpl. rewrite Hm. f_equal. exact Hx.
Qed.

Lemma Sorted_weaken {A} (R R' : A -> A -> Prop) (l : list A) :
  (forall x y, R x y -> R' x y) -> Sorted R l -> Sorted R' l.
Proof.
  intros HR. induction 1 as [|x l Hs IH Hh]; constructor; [exact IH|].
  destruct Hh; constructor. apply HR; assumption.
Qed.

Lemma count_ee_le fs : count_ee fs <= length fs.
Proof.
  unfold count_ee. induction fs as [|f fs IH]; simpl; [lia|].
  destruct (is_ee f); simpl; lia.
Qed.

Lemma sort_perm_eq (l1 l2 : list ScalarFactor) : Permutation l1 l2 -> sort l1 = sort l2.
Proof.
  intros Hp. apply sorted_perm_eq; [apply sort_sorted|apply sort_sorted|].
  eapply perm_trans; [apply sort_perm|].
  eapply perm_trans; [exact Hp|apply Permutation_sym, sort_perm].
Qed.

(** Under the unrestricted pattern and a nonzero target degree [D], the
    returned structures are exactly the canonical forms of the multisets of
    [D] catalog factors (repetitions allowed) with [E] EE factors, each
    carrying [ee_contractions = E]. *)
Theorem generate_unrestricted_exact cfg D E out t :
  pol_pattern cfg = Unrestricted -> D <> 0%N ->
  generate_tensor_structures cfg D E = Some out ->
  In t out <->
  exists pp pe ee fs,
    generate_valid_factors cfg = Some (pp, pe, ee) /\ incl fs (pp ++ pe ++ ee) /\
    N.of_nat (length fs) = D /\ N.of_nat (count_ee fs) = E /\ t = mkTS (sort fs) E.
Proof.
  intros Hpol HD0 Hg. split.
  - intros Ht.
    destruct (generate_member _ _ _ _ _ Hg Ht)
      as (pp & pe & ee & q & s' & Hc & Hq & Hf & Hp & Hd & Ha & ->).
    destruct (initial_Extends _ _ _ _ _ _ Hp) as (_ & Hne & _ & _ & _ & Hfs & Hee & _).
    assert (HeeE : ee_so_far s' = E).
    { unfold leaf_accepts in Ha. apply andb_prop in Ha as [Ha _].
      apply N.eqb_eq in Ha. congruence. }
    exists pp, pe, ee, (map (cat_nth (pp ++ pe ++ ee)) q).
    split; [exact Hc|]. split.
    { intros x Hx. apply in_map_iff in Hx as (k & <- & Hk).
      rewrite Forall_forall in Hf. apply nth_In, Hf, Hk. }
    split; [unfold deg_so_far in Hd; rewrite Hfs in Hd; exact Hd|].
    split; [rewrite <- Hee; exact HeeE|].
    apply TensorStructure_ext; simpl; [rewrite Hfs; reflexivity|exact HeeE].
  - intros (pp' & pe' & ee' & fs & Hc' & Hincl & Hlen & Hcnt & ->).
    destruct (generate_collect _ _ _ _ Hg)
      as [[[HD|HDE] _]|((_ & HED) & pp & pe & ee & L & Hc & HL & Hout)].
    + contradiction.
    + pose proof (count_ee_le fs). lia.
    + rewrite Hc in Hc'. injection Hc' as <- <- <-.
      set (cat := pp ++ pe ++ ee) in *.
      destruct (indices_of cat fs Hincl) as (q0 & Hq0 & Hm).
      set (q := sort q0).
      assert (Hqp : Permutation q q0) by apply sort_perm.
      assert (Hfq : Permutation (map (cat_nth cat) q) fs)
        by (rewrite <- Hm; apply Permutation_map, Hqp).
      set (u := initial_state cfg D E cat).
      assert (Hen : enforce_one_pol u = false) by (simpl; rewrite Hpol; reflexivity).
      destruct (extend_path_unrestricted q u Hen) as (u' & Hu).
      destruct (initial_Extends _ _ _ _ _ _ Hu) as (Ut & Une & _ & _ & _ & Ufs & Uee & _).
      destruct (collect_complete (S (N.to_nat D)) q u 0 u' Hen) as (L' & HL' & Hin).
      * simpl. lia.
      * apply (Sorted_weaken cmp_le); [intros x y; apply Nat.compare_le_iff|apply sort_sorted].
      * rewrite Forall_forall in Hq0 |- *. intros k Hk.
        split; [lia|]. apply Hq0. eapply Permutation_in; [exact Hqp|exact Hk].
      * exact Hu.
      * unfold deg_so_far. rewrite Ufs, Ut, (Permutation_length Hfq). exact Hlen.
      * unfold ee_so_far in Uee |- *. rewrite Uee, Une, (count_ee_perm _ _ Hfq). exact Hcnt.
      * unfold u in HL'. rewrite HL in HL'. injection HL' as <-.
        destruct (insert_leaves_has L [] u' Hin) as (t' & Ht' & Hft').
        rewrite <- Hout in Ht'.
        replace (mkTS (sort fs) E) with t'; [exact Ht'|].
        apply TensorStructure_ext.
        -- rewrite Hft'. simpl. rewrite Ufs. apply sort_perm_eq, Hfq.
        -- simpl. exact (proj2 (generate_member_ee _ _ _ _ _ Hg Ht')).
Qed.

Lemma generate_unrestricted_exact_witness :
  pol_pattern cfg3_unres = Unrestricted /\ (2 <> 0)%N /\
  generate_tensor_structures cfg3_unres 2 1 = Some out_unres_3_2_1 /\
  (In (hd TensorStructure_new out_unres_3_2_1) out_unres_3_2_1 <->
   exists pp pe ee fs,
     generate_valid_factors cfg3_unres = Some (pp, pe, ee) /\ incl fs (pp ++ pe ++ ee) /\
     N.of_nat (length fs) = 2%N /\ N.of_nat (count_ee fs) = 1%N /\
     hd TensorStructure_new out_unres_3_2_1 = mkTS (sort fs) 1).
Proof.
  assert (Hg : generate_tensor_structures cfg3_unres 2 1 = Some out_unres_3_2_1)
    by (vm_compute; reflexivity).
  split; [reflexivity|]. split; [discriminate|]. split; [exact Hg|].
  exact (generate_unrestricted_exact cfg3_unres 2 1 _ _ eq_refl ltac:(discriminate) Hg).
Defined.

(** ** Kinds of the factors of a one-pol-per-leg structure *)

Lemma count_pe_perm l1 l2 : Permutation l1 l2 -> count_pe l1 = count_pe l2.
Proof.
  unfold count_pe. induction 1; simpl; auto.
  - destruct (is_pe x); simpl; auto.
  - destruct (is_pe x), (is_pe y); simpl; auto.
  - congruence.
Qed.

Lemma count_ee_pe_le fs : count_ee fs + count_pe fs <= length fs.
Proof.
  unfold count_ee, count_pe, is_ee, is_pe.
  induction fs as [|f fs IH]; simpl; [lia|]. destruct (kind f); simpl; lia.
Qed.

Lemma no_pp_of_counts fs :
  count_ee fs + count_pe fs = length fs -> forall f, In f fs -> kind f <> PP.
Proof.
  induction fs as [|g fs IH]; simpl; intros Hc f Hf; [contradiction|].
  pose proof (count_ee_pe_le fs) as Hle.
  unfold count_ee, count_pe, is_ee, is_pe in Hc, IH, Hle. simpl in Hc.
  destruct Hf as [<-|Hf].
  - destruct (kind g); simpl in Hc; [lia|discriminate|discriminate].
  - apply IH; [|exact Hf]. destruct (kind g); simpl in Hc; lia.
Qed.

(** Under one-pol-per-leg every returned structure has [D] factors, [E] of
    them EE, and [2 E + (number of PE factors) = n_legs]. *)
Lemma generate_one_pol_counts cfg D E out t :
  pol_pattern cfg = OnePerLeg ->
  generate_tensor_structures cfg D E = Some out -> In t out ->
  N.of_nat (length (factors t)) = D /\ N.of_nat (count_ee (factors t)) = E /\
  2 * count_ee (factors t) + count_pe (factors t) = n_legs cfg.
Proof.
  intros Hpol Hg Ht.
  destruct (generate_member _ _ _ _ _ Hg Ht)
    as (pp & pe & ee & q & s' & _ & _ & _ & Hp & Hd & Ha & ->).
  destruct (initial_Extends _ _ _ _ _ _ Hp) as (_ & Hne & Hn & Hen & _ & Hf & Hee & _).
  pose proof (extend_path_Extends _ _ _ Hp) as (_ & _ & _ & _ & _ & _ & _ & P).
  rewrite Hpol in Hen.
  assert (Hen0 : enforce_one_pol (initial_state cfg D E (pp ++ pe ++ ee)) = true)
    by (simpl; rewrite Hpol; reflexivity).
  destruct (P Hen0) as [Hpe _]. simpl in Hpe.
  unfold leaf_accepts in Ha. rewrite Hen in Ha. cbn [negb] in Ha.
  apply andb_prop in Ha as [He Ha]. apply andb_prop in Ha as [Hpol2 _].
  apply N.eqb_eq in He, Hpol2.
  simpl. rewrite (Permutation_length (sort_perm _)), (count_ee_perm _ _ (sort_perm _)),
    (count_pe_perm _ _ (sort_perm _)).
  split; [exact Hd|]. split; [rewrite Hf, <- Hee, <- Hne; exact He|].
  rewrite Hpe, Hee, Hn in Hpol2. rewrite Hf. lia.
Qed.

(** ** [run_gen_ts] *)

Lemma run_gen_ts_done_inv n deg ee d e ts :
  run_gen_ts n deg ee = CliDone d e ts ->
  n <> 0 /\ (d + e)%N = N.of_nat n /\ (e <= d)%N /\
  generate_tensor_structures (mkCfg n Transversality.ForbidPiDotEi OnePerLeg) d e = Some ts.
Proof.
  unfold run_gen_ts, u32_sub.
  destruct (Nat.eqb_spec n 0) as [|Hn]; [discriminate|].
  destruct (N.ltb_spec (N.of_nat n) ee) as [|Hee]; [discriminate|].
  destruct (N.ltb_spec (N.of_nat n) deg) as [|Hdeg]; [discriminate|].
  destruct (N.eqb_spec deg 0) as [Hd0|Hd0], (N.eqb_spec ee 0) as [He0|He0];
    cbn [negb andb orb].
  - destruct (N.ltb_spec (N.of_nat n) 0%N); [discriminate|].
    destruct (generate_tensor_structures _ _ _) eqn:Hg; [|discriminate].
    intros [= <- <- <-]. repeat split; [exact Hn|lia|lia|exact Hg].
  - destruct (N.ltb_spec (N.of_nat n - ee) ee); [discriminate|].
    destruct (generate_tensor_structures _ _ _) eqn:Hg; [|discriminate].
    intros [= <- <- <-]. repeat split; [exact Hn|lia|lia|exact Hg].
  - destruct (N.ltb_spec deg (N.of_nat n - deg)); [discriminate|].
    destruct (generate_tensor_structures _ _ _) eqn:Hg; [|discriminate].
    intros [= <- <- <-]. repeat split; [exact Hn|lia|lia|exact Hg].
  - destruct (N.eqb_spec deg (N.of_nat n - ee)), (N.eqb_spec ee (N.of_nat n - deg));
      cbn [negb orb]; try discriminate.
    destruct (N.ltb_spec deg ee); [discriminate|].
    destruct (generate_tensor_structures _ _ _) eqn:Hg; [|discriminate].
    intros [= <- <- <-]. repeat split; [exact Hn|lia|lia|exact Hg].
Qed.

(** [gen-ts] prints structures only with [deg + ee = n] and [ee <= deg]
    (after inferring a zero input), and every printed structure has [deg]
    factors, [ee] of them EE and the other [deg - ee] PE: the CLI never
    prints a structure with a momentum-momentum (PP) factor. *)
Theorem run_gen_ts_done n deg ee d e ts :
  run_gen_ts n deg ee = CliDone d e ts ->
  (d + e)%N = N.of_nat n /\ (e <= d)%N /\
  forall t, In t ts ->
    N.of_nat (length (factors t)) = d /\ N.of_nat (count_ee (factors t)) = e /\
    N.of_nat (count_pe (factors t)) = (d - e)%N /\
    forall f, In f (factors t) -> kind f <> PP.
Proof.
  intros Hr. destruct (run_gen_ts_done_inv _ _ _ _ _ _ Hr) as (_ & Hsum & Hle & Hg).
  split; [exact Hsum|]. split; [exact Hle|]. intros t Ht.
  destruct (generate_one_pol_counts _ _ _ _ _ (eq_refl : pol_pattern (mkCfg n Transversality.ForbidPiDotEi OnePerLeg) = OnePerLeg) Hg Ht) as (Hl & He & Hp).
  simpl in Hp.
  split; [exact Hl|]. split; [exact He|]. split; [lia|].
  apply no_pp_of_counts. lia.
Qed.

Lemma run_gen_ts_done_witness :
  run_gen_ts 4 0 1 = CliDone 3 1 out_4_3_1 /\
  ((3 + 1)%N = N.of_nat 4 /\ (1 <= 3)%N /\
   forall t, In t out_4_3_1 ->
     N.of_nat (length (factors t)) = 3%N /\ N.of_nat (count_ee (factors t)) = 1%N /\
     N.of_nat (count_pe (factors t)) = (3 - 1)%N /\
     forall f, In f (factors t) -> kind f <> PP).
Proof.
  assert (Hr : run_gen_ts 4 0 1 = CliDone 3 1 out_4_3_1) by (vm_compute; reflexivity).
  split; [exact Hr|]. exact (run_gen_ts_done 4 0 1 3 1 out_4_3_1 Hr).
Defined.

(** For [1 <= n <= 254], [gen-ts] panics exactly when [deg] or [ee] exceeds
    [n] ([n as u32 - ee] or [n as u32 - deg] underflows); otherwise it
    exits with a message or prints its structures. *)
Theorem run_gen_ts_panic_iff n deg ee :
  1 <= n <= 254 ->
  run_gen_ts n deg ee = CliPanic <-> (N.of_nat n < deg \/ N.of_nat n < ee)%N.
Proof.
  intros Hn. unfold run_gen_ts, u32_sub.
  replace (n =? 0) with false by (symmetry; apply Nat.eqb_neq; lia).
  destruct (N.ltb_spec (N.of_nat n) ee) as [Hee|Hee]; [split; auto|].
  destruct (N.ltb_spec (N.of_nat n) deg) as [Hdeg|Hdeg]; [split; auto|].
  split; [|lia]. intros Hr. exfalso.
  assert (Hgen : forall d e, (d <= N.of_nat n)%N ->
    match (if (d <? e)%N then CliExit ExitEeAboveDeg
           else match generate_tensor_structures
                        (mkCfg n (transversality GenConfig_default)
                           (pol_pattern GenConfig_default)) d e with
                | Some ts => CliDone d e ts
                | None => CliPanic
                end) with CliPanic => False | _ => True end).
  { intros d e Hd. destruct (d <? e)%N; [exact I|].
    destruct (generate_some (mkCfg n (transversality GenConfig_default)
                               (pol_pattern GenConfig_default)) d e) as (ts & ->).
    - simpl. lia.
    - right. lia.
    - exact I. }
  destruct (N.eqb_spec deg 0), (N.eqb_spec ee 0); cbn [negb andb orb] in Hr.
  - specialize (Hgen (N.of_nat n) 0%N ltac:(lia)). rewrite Hr in Hgen. exact Hgen.
  - specialize (Hgen (N.of_nat n - ee)%N ee ltac:(lia)). rewrite Hr in Hgen. exact Hgen.
  - specialize (Hgen deg (N.of_nat n - deg)%N ltac:(lia)). rewrite Hr in Hgen. exact Hgen.
  - destruct (_ || _) in Hr; [discriminate|].
    specialize (Hgen deg ee ltac:(lia)). rewrite Hr in Hgen. exact Hgen.
Qed.

Lemma run_gen_ts_panic_iff_witness :
  1 <= 4 <= 254 /\ (run_gen_ts 4 5 0 = CliPanic <-> (N.of_nat 4 < 5 \/ N.of_nat 4 < 0)%N).
Proof.
  split; [lia|]. apply run_gen_ts_panic_iff. lia.
Defined.

(** With [n = 255] (the largest [u8]), [gen-ts] never prints: every input
    that passes the consistency checks reaches the catalog builder, whose
    [u8] range overflows. *)
Theorem run_gen_ts_255_never_done deg ee d e ts :
  run_gen_ts 255 deg ee <> CliDone d e ts.
Proof.
  intros Hr. destruct (run_gen_ts_done_inv _ _ _ _ _ _ Hr) as (_ & Hsum & Hle & Hg).
  rewrite generate_catalog_overflow in Hg; [discriminate|simpl; lia|lia|exact Hle].
Qed.

(** ** Completeness of the one-pol-per-leg search *)

Lemma extend_path_app s q1 q2 :
  extend_path s (q1 ++ q2) =
  match extend_path s q1 with Some s1 => extend_path s1 q2 | None => None end.
Proof.
  revert s; induction q1 as [|k q1 IH]; intros s; simpl; [reflexivity|].
  destruct (extend s _); [apply IH|reflexivity].
Qed.

Lemma extend_path_ok q : forall s,
  search_ok s -> Forall (fun k => k < length (catalog s)) q ->
  exists s', extend_path s q = Some s'.
Proof.
  induction q as [|k q IH]; intros s Hok Hf; simpl; [eauto|].
  inversion Hf as [|? ? Hk Hf']; subst.
  destruct (extend_search_ok s (nth k (catalog s) (sf_pp 0 0)) Hok (nth_In _ _ Hk))
    as (s1 & E1 & Hok1).
  rewrite E1. apply IH; [exact Hok1|].
  assert (Hc : catalog s1 = catalog s) by (apply extend_Extends in E1; apply E1).
  rewrite Hc. exact Hf'.
Qed.

Lemma collect_loop_complete_ok rec s k c s' L1 :
  search_ok s ->
  (forall s1 i, search_ok s1 -> exists L, rec s1 i = Some L) ->
  extend s (cat_nth (catalog s) k) = Some c -> rec c k = Some L1 -> In s' L1 ->
  forall rest i, rest = skipn i (catalog s) -> i <= k < length (catalog s) ->
  exists L, collect_loop rec s i rest = Some L /\ In s' L.
Proof.
  intros Hok Hrec Ec Rc Hin rest; induction rest as [|f rest IH]; intros i Hr Hk.
  - exfalso.
    assert (Hl : length (skipn i (catalog s)) = 0) by (rewrite <- Hr; reflexivity).
    rewrite length_skipn in Hl. lia.
  - symmetry in Hr.
    apply (skipn_cons_nth _ _ _ _ (sf_pp 0 0)) in Hr as (Hi & Hf & Hrest).
    simpl.
    destruct (Nat.eq_dec i k) as [->|Hne].
    + unfold cat_nth in Ec. rewrite Hf in Ec. rewrite Ec, Rc.
      destruct (collect_loop_some_ok rec s Hok Hrec rest (S k)) as [L2 ->];
        [rewrite Hrest; apply incl_skipn|].
      exists (L1 ++ L2). split; [reflexivity|]. apply in_or_app; left; exact Hin.
    + assert (Hfin : In f (catalog s)) by (rewrite <- Hf; apply nth_In; exact Hi).
      destruct (extend_search_ok s f Hok Hfin) as (s1 & E1 & Hok1). rewrite E1.
      destruct (Hrec s1 i Hok1) as [L0 ->].
      destruct (IH (S i) Hrest ltac:(lia)) as (L2 & -> & Hin2).
      exists (L0 ++ L2). split; [reflexivity|]. apply in_or_app; right; exact Hin2.
Qed.

Lemma collect_complete_ok fuel : forall q s idx s',
  search_ok s ->
  N.to_nat (target_deg s) < fuel + length (factors (cur s)) ->
  Sorted le q -> Forall (fun k => idx <= k < length (catalog s)) q ->
  extend_path s q = Some s' ->
  (forall q1 q2 s1, q = q1 ++ q2 -> extend_path s q1 = Some s1 ->
     (if enforce_one_pol s1 then one_pol_prunes s1 else Proceed) = Proceed) ->
  deg_so_far s' = target_deg s' -> leaf_accepts s' = true ->
  exists L, dfs_collect fuel s idx = Some L /\ In s' L.
Proof.
  induction fuel as [|fuel IH]; intros q s idx s' Hok Hfuel Hq Hf Hp Hpr Hdeg Hacc;
    pose proof (extend_path_Extends _ _ _ Hp) as (T & Ne & _ & _ & _ & F & Ee & _);
    unfold deg_so_far in Hdeg; rewrite F, T, length_app, length_map in Hdeg.
  - lia.
  - assert (Hee : (ee_so_far s <= ee_needed s)%N).
    { unfold leaf_accepts in Hacc. apply andb_prop in Hacc as [Hacc _].
      apply N.eqb_eq in Hacc. lia. }
    simpl. unfold deg_so_far.
    replace ((target_deg s <? N.of_nat (length (factors (cur s))))%N ||
             (ee_needed s <? ee_so_far s)%N) with false
      by (symmetry; apply orb_false_iff; split; apply N.ltb_ge; lia).
    rewrite (Hpr [] q s eq_refl eq_refl).
    destruct q as [|k q].
    + simpl in Hp. injection Hp as <-.
      simpl in Hdeg. rewrite Nat.add_0_r in Hdeg.
      rewrite (proj2 (N.eqb_eq _ _) Hdeg), Hacc.
      exists [s]; split; [reflexivity | left; reflexivity].
    + simpl in Hdeg.
      replace (N.of_nat (length (factors (cur s))) =? target_deg s)%N with false
        by (symmetry; apply N.eqb_neq; lia).
      simpl in Hp.
      destruct (extend s (nth k (catalog s) (sf_pp 0 0))) as [c|] eqn:Ec; [|discriminate].
      pose proof (extend_Extends _ _ _ Ec) as (Tc & Nc & _ & Enc & Cc & Fc & _).
      apply sorted_head_le in Hq as [Hq Hkq].
      inversion Hf as [|? ? Hk Hf']; subst.
      assert (Hok_c : search_ok c).
      { destruct (extend_search_ok s _ Hok (nth_In _ (sf_pp 0 0) (proj2 Hk)))
          as (c' & Ec' & Hok'). rewrite Ec in Ec'. injection Ec' as <-. exact Hok'. }
      assert (Hfuel_c : N.to_nat (target_deg c) < fuel + length (factors (cur c)))
        by (rewrite Tc, Fc, length_app; simpl; lia).
      assert (Hf_c : Forall (fun j => k <= j < length (catalog c)) q).
      { rewrite Forall_forall in Hf', Hkq |- *. intros j Hj.
        rewrite Cc. split; [apply Hkq, Hj | apply Hf', Hj]. }
      assert (Hpr_c : forall q1 q2 s1, q = q1 ++ q2 -> extend_path c q1 = Some s1 ->
                 (if enforce_one_pol s1 then one_pol_prunes s1 else Proceed) = Proceed).
      { intros q1 q2 s1 -> Hp1. apply (Hpr (k :: q1) q2 s1 eq_refl).
        simpl. rewrite Ec. exact Hp1. }
      destruct (IH q c k s' Hok_c Hfuel_c Hq Hf_c Hp Hpr_c) as (L1 & R1 & Hin1);
        [unfold deg_so_far; rewrite F, T, length_app, length_map; simpl; lia | exact Hacc |].
      exact (collect_loop_complete_ok (dfs_collect fuel) s k c s' L1 Hok
                 (fun s1 i H => collect_some_ok fuel s1 i H) Ec R1 Hin1
                 _ idx eq_refl Hk).
Qed.

Lemma sum_indicator x k : forall a,
  list_sum (map (fun r => if x =? r then 1 else 0) (seq a k)) =
  if (a <=? x) && (x <? a + k) then 1 else 0.
Proof.
  induction k as [|k IH]; intros a; simpl.
  - nat_bool_cases; simpl; lia.
  - rewrite IH. nat_bool_cases; simpl; lia.
Qed.

Lemma sum_map_add (g h : nat -> nat) l :
  list_sum (map (fun r => g r + h r) l) = list_sum (map g l) + list_sum (map h l).
Proof. induction l as [|r l IH]; simpl; [reflexivity|]. rewrite IH. lia. Qed.

Lemma touches_cons r f fs :
  touches r (f :: fs) =
  match kind f with
  | PP => 0
  | PE => if b f =? r then 1 else 0
  | EE => (if a f =? r then 1 else 0) + (if b f =? r then 1 else 0)
  end + touches r fs.
Proof. simpl. destruct (kind f); lia. Qed.

Lemma count_ee_cons f fs : count_ee (f :: fs) = (if is_ee f then 1 else 0) + count_ee fs.
Proof. unfold count_ee. simpl. destruct (is_ee f); reflexivity. Qed.

Lemma count_pe_cons f fs : count_pe (f :: fs) = (if is_pe f then 1 else 0) + count_pe fs.
Proof. unfold count_pe. simpl. destruct (is_pe f); reflexivity. Qed.

Lemma touches_sum n fs :
  (forall f, In f fs -> legs_range n f) ->
  list_sum (map (fun r => touches r fs) (seq 1 n)) = 2 * count_ee fs + count_pe fs.
Proof.
  induction fs as [|f fs IH]; intros Hr.
  - simpl. clear. induction (seq 1 n); simpl; auto.
  - assert (Hf : legs_range n f) by (apply Hr; left; reflexivity).
    assert (IH' := IH (fun g Hg => Hr g (or_intror Hg))).
    rewrite (map_ext _ _ (fun r => touches_cons r f fs)), sum_map_add, IH',
      count_ee_cons, count_pe_cons.
    unfold legs_range in Hf. unfold is_ee, is_pe.
    destruct (kind f); cbn beta iota.
    + rewrite sum_const. lia.
    + rewrite sum_indicator. nat_bool_cases; simpl; lia.
    + rewrite sum_map_add, !sum_indicator. nat_bool_cases; simpl; lia.
Qed.

Lemma filter_length_le_sum (p : nat -> bool) (g : nat -> nat) l :
  (forall r, In r l -> p r = true -> 1 <= g r) -> length (filter p l) <= list_sum (map g l).
Proof.
  induction l as [|r l IH]; intros H; simpl; [lia|].
  assert (IH' := IH (fun r' Hr' => H r' (or_intror Hr'))).
  destruct (p r) eqn:Hp; simpl; [|lia].
  specialize (H r (or_introl eq_refl) Hp). lia.
Qed.

(** Along a path to a structure with one polarization per leg, none of the
    three one-pol-per-leg prunes fires. *)
Lemma one_pol_path_proceeds cfg D E cat q s' :
  pol_pattern cfg = OnePerLeg -> (D < 2147483648)%N ->
  extend_path (initial_state cfg D E cat) q = Some s' ->
  N.of_nat (length (map (cat_nth cat) q)) = D ->
  (forall f, In f (map (cat_nth cat) q) -> legs_range (n_legs cfg) f) ->
  (forall r, 1 <= r <= n_legs cfg -> touches r (map (cat_nth cat) q) = 1) ->
  forall q1 q2 s1, q = q1 ++ q2 -> extend_path (initial_state cfg D E cat) q1 = Some s1 ->
  one_pol_prunes s1 = Proceed.
Proof.
  intros Hpol HD _ Hlen Hlegs Htouch q1 q2 s1 -> Hp1.
  rewrite map_app in Hlen, Hlegs, Htouch.
  set (F1 := map (cat_nth cat) q1) in *. set (F2 := map (cat_nth cat) q2) in *.
  destruct (initial_Extends _ _ _ _ _ _ Hp1) as (T1 & _ & N1 & _ & _ & Fs1 & Ee1 & Pc1).
  pose proof (extend_path_Extends _ _ _ Hp1) as (_ & _ & _ & _ & _ & _ & _ & P).
  assert (Hen0 : enforce_one_pol (initial_state cfg D E cat) = true)
    by (simpl; rewrite Hpol; reflexivity).
  destruct (P Hen0) as [Pe1 _]. simpl in Pe1. fold F1 in Pe1.
  specialize (Pc1 Hpol). fold F1 in Fs1, Ee1, Pc1.
  rewrite length_app in Hlen.
  assert (Hsplit : forall r, 1 <= r <= n_legs cfg -> touches r F1 + touches r F2 = 1).
  { intros r Hr. rewrite <- touches_app. apply Htouch, Hr. }
  assert (Hall : 2 * count_ee (F1 ++ F2) + count_pe (F1 ++ F2) = n_legs cfg).
  { rewrite <- (touches_sum (n_legs cfg) (F1 ++ F2) Hlegs).
    rewrite (map_ext_in _ (fun _ => 1)), sum_const, length_seq; [lia|].
    intros r Hr. apply in_seq in Hr. apply Htouch. lia. }
  rewrite count_ee_app, count_pe_app in Hall.
  assert (Hsum2 : list_sum (map (fun r => touches r F2) (seq 1 (n_legs cfg)))
                  = 2 * count_ee F2 + count_pe F2).
  { apply touches_sum. intros f Hf. apply Hlegs, in_or_app. right; exact Hf. }
  pose proof (count_ee_pe_le F2) as Hle2.
  unfold one_pol_prunes. rewrite N1, T1.
  destruct (existsb _ _) eqn:Ex.
  { exfalso. apply existsb_exists in Ex as (r & Hr & Hgt).
    unfold range_incl in Hr. apply in_seq in Hr.
    rewrite Pc1 in Hgt. apply N.ltb_lt in Hgt. specialize (Hsplit r ltac:(lia)). lia. }
  assert (Hmiss : length (filter (fun r => nth r (pol_count s1) 0 =? 0)%N
                            (range_incl 1 (n_legs cfg))) <= 2 * length F2).
  { eapply Nat.le_trans; [apply (filter_length_le_sum _ (fun r => touches r F2))|].
    - intros r Hr Hz. unfold range_incl in Hr. apply in_seq in Hr.
      rewrite Pc1 in Hz. apply N.eqb_eq in Hz. specialize (Hsplit r ltac:(lia)). lia.
    - unfold range_incl. replace (S (n_legs cfg) - 1) with (n_legs cfg) by lia.
      rewrite Hsum2. lia. }
  unfold ee_so_far in Ee1 |- *. unfold deg_so_far. rewrite Fs1, Ee1, Pe1.
  replace (u32_max <? (D - N.of_nat (length F1)) * 2)%N with false
    by (symmetry; apply N.ltb_ge; unfold u32_max; lia).
  replace ((D - N.of_nat (length F1)) * 2 <? N.of_nat (length (filter
             (fun r => nth r (pol_count s1) 0 =? 0)%N (range_incl 1 (n_legs cfg)))))%N
    with false by (symmetry; apply N.ltb_ge; lia).
  replace (N.of_nat (n_legs cfg) <? 2 * N.of_nat (count_ee F1) + N.of_nat (count_pe F1))%N
    with false by (symmetry; apply N.ltb_ge; lia).
  reflexivity.
Qed.

Lemma initial_search_ok cfg D E pp pe ee :
  generate_valid_factors cfg = Some (pp, pe, ee) ->
  (pol_pattern cfg = Unrestricted \/ (D < 2147483648)%N) ->
  search_ok (initial_state cfg D E (pp ++ pe ++ ee)).
Proof.
  intros Hc Hsafe.
  assert (Hn : n_legs cfg < 255).
  { rewrite generate_valid_factors_eq in Hc.
    destruct (Nat.ltb_spec (n_legs cfg) 255); [exact H|discriminate]. }
  destruct (generate_valid_factors_spec cfg Hn)
    as (pp' & pe' & ee' & Hc' & _ & _ & _ & Hpp & Hpe & Hee).
  rewrite Hc in Hc'. injection Hc' as <- <- <-.
  unfold search_ok, initial_state. simpl. intros Hen.
  split; [destruct Hsafe as [Hs|Hs]; [rewrite Hs in Hen; discriminate|exact Hs]|].
  split; [apply repeat_length|].
  intros f Hf. apply in_app_or in Hf as [Hf|Hf]; [|apply in_app_or in Hf as [Hf|Hf]].
  - apply Hpp in Hf as (i & j & -> & _). exact I.
  - apply Hpe in Hf as (i & j & -> & _ & Hj & _). unfold legs_ok; simpl. lia.
  - apply Hee in Hf as (i & j & -> & Hij). unfold legs_ok; simpl. split; lia.
Qed.

Lemma catalog_legs_range cfg pp pe ee f :
  generate_valid_factors cfg = Some (pp, pe, ee) -> In f (pp ++ pe ++ ee) ->
  legs_range (n_legs cfg) f.
Proof.
  intros Hc Hf.
  assert (Hn : n_legs cfg < 255).
  { rewrite generate_valid_factors_eq in Hc.
    destruct (Nat.ltb_spec (n_legs cfg) 255); [exact H|discriminate]. }
  destruct (generate_valid_factors_spec cfg Hn)
    as (pp' & pe' & ee' & Hc' & _ & _ & _ & Hpp & Hpe & Hee).
  rewrite Hc in Hc'. injection Hc' as <- <- <-.
  apply in_app_or in Hf as [Hf|Hf]; [|apply in_app_or in Hf as [Hf|Hf]].
  - apply Hpp in Hf as (i & j & -> & _). exact I.
  - apply Hpe in Hf as (i & j & -> & _ & Hj & _). unfold legs_range; simpl. lia.
  - apply Hee in Hf as (i & j & -> & Hij). unfold legs_range; simpl. split; lia.
Qed.

(** Under one-pol-per-leg and a nonzero target degree [D], the returned
    structures are exactly the canonical forms of the multisets of [D]
    catalog factors (repetitions allowed) with [E] EE factors in which
    every leg [1..n] is polarized exactly once: the prunes of the search
    never discard such a multiset. *)
Theorem generate_one_pol_exact cfg D E out t :
  pol_pattern cfg = OnePerLeg -> D <> 0%N ->
  generate_tensor_structures cfg D E = Some out ->
  In t out <->
  exists pp pe ee fs,
    generate_valid_factors cfg = Some (pp, pe, ee) /\ incl fs (pp ++ pe ++ ee) /\
    N.of_nat (length fs) = D /\ N.of_nat (count_ee fs) = E /\
    (forall r, 1 <= r <= n_legs cfg -> touches r fs = 1) /\ t = mkTS (sort fs) E.
Proof.
  intros Hpol HD0 Hg. split.
  - intros Ht.
    destruct (generate_member _ _ _ _ _ Hg Ht)
      as (pp & pe & ee & q & s' & Hc & Hq & Hf & Hp & Hd & Ha & ->).
    destruct (initial_Extends _ _ _ _ _ _ Hp)
      as (_ & Hne & Hn & Hen & _ & Hfs & Hee & Hpc).
    rewrite Hpol in Hen.
    unfold leaf_accepts in Ha. rewrite Hen in Ha. cbn [negb] in Ha.
    apply andb_prop in Ha as [He Ha]. apply andb_prop in Ha as [_ Ha].
    apply N.eqb_eq in He. rewrite forallb_forall in Ha.
    exists pp, pe, ee, (map (cat_nth (pp ++ pe ++ ee)) q).
    split; [exact Hc|]. split.
    { intros x Hx. apply in_map_iff in Hx as (k & <- & Hk).
      rewrite Forall_forall in Hf. apply nth_In, Hf, Hk. }
    split; [unfold deg_so_far in Hd; rewrite Hfs in Hd; exact Hd|].
    split; [rewrite <- Hee, <- Hne; exact He|].
    split.
    + intros r Hr.
      assert (Hr' : In r (range_incl 1 (nlegs s'))) by (unfold range_incl; apply in_seq; lia).
      specialize (Ha r Hr'). apply N.eqb_eq in Ha. rewrite (Hpc Hpol) in Ha. lia.
    + apply TensorStructure_ext; simpl; [rewrite Hfs; reflexivity|].
      fold (ee_so_far s'). congruence.
  - intros (pp' & pe' & ee' & fs & Hc' & Hincl & Hlen & Hcnt & Htouch & ->).
    destruct (generate_collect _ _ _ _ Hg)
      as [[[HD|HDE] _]|((_ & HED) & pp & pe & ee & L & Hc & HL & Hout)].
    + contradiction.
    + pose proof (count_ee_le fs). lia.
    + rewrite Hc in Hc'. injection Hc' as <- <- <-.
      assert (Hn : n_legs cfg < 255).
      { rewrite generate_valid_factors_eq in Hc.
        destruct (Nat.ltb_spec (n_legs cfg) 255); [exact H|discriminate]. }
      assert (HD : (D < 2147483648)%N).
      { destruct (N.lt_ge_cases D 2147483648) as [HD|HD]; [exact HD|].
        rewrite (generate_one_pol_overflow cfg D E Hpol HD HED Hn) in Hg. discriminate. }
      set (cat := pp ++ pe ++ ee) in *.
      destruct (indices_of cat fs Hincl) as (q0 & Hq0 & Hm).
      set (q := sort q0).
      assert (Hqp : Permutation q q0) by apply sort_perm.
      assert (Hfq : Permutation (map (cat_nth cat) q) fs)
        by (rewrite <- Hm; apply Permutation_map, Hqp).
      assert (Hqlt : Forall (fun k => k < length cat) q).
      { rewrite Forall_forall in Hq0 |- *. intros k Hk.
        apply Hq0. eapply Permutation_in; [exact Hqp|exact Hk]. }
      set (u := initial_state cfg D E cat).
      assert (Hok : search_ok u) by exact (initial_search_ok cfg D E pp pe ee Hc (or_intror HD)).
      destruct (extend_path_ok q u Hok Hqlt) as (u' & Hu).
      destruct (initial_Extends _ _ _ _ _ _ Hu)
        as (Ut & Une & Un & Uen & _ & Ufs & Uee & Upc).
      rewrite Hpol in Uen.
      assert (Hlegs : forall f, In f (map (cat_nth cat) q) -> legs_range (n_legs cfg) f).
      { intros f Hf. apply (catalog_legs_range cfg pp pe ee f Hc), Hincl.
        eapply Permutation_in; [exact Hfq|exact Hf]. }
      assert (Htouch' : forall r, 1 <= r <= n_legs cfg -> touches r (map (cat_nth cat) q) = 1).
      { intros r Hr. rewrite (touches_perm _ _ _ Hfq). apply Htouch, Hr. }
      assert (Hlen' : N.of_nat (length (map (cat_nth cat) q)) = D)
        by (rewrite (Permutation_length Hfq); exact Hlen).
      assert (Hall : 2 * count_ee (map (cat_nth cat) q) + count_pe (map (cat_nth cat) q)
                     = n_legs cfg).
      { rewrite <- (touches_sum _ _ Hlegs).
        rewrite (map_ext_in _ (fun _ => 1)), sum_const, length_seq; [lia|].
        intros r Hr. apply in_seq in Hr. apply Htouch'. lia. }
      pose proof (extend_path_Extends _ _ _ Hu) as (_ & _ & _ & _ & _ & _ & _ & P).
      assert (Hen0 : enforce_one_pol u = true) by (simpl; rewrite Hpol; reflexivity).
      destruct (P Hen0) as [Pe' _]. simpl in Pe'.
      destruct (collect_complete_ok (S (N.to_nat D)) q u 0 u' Hok) as (L' & HL' & Hin).
      * simpl. lia.
      * apply (Sorted_weaken cmp_le); [intros x y; apply Nat.compare_le_iff|apply sort_sorted].
      * rewrite Forall_forall in Hqlt |- *. intros k Hk. split; [lia|]. apply Hqlt, Hk.
      * exact Hu.
      * intros q1 q2 s1 Hq12 Hp1.
        destruct (initial_Extends _ _ _ _ _ _ Hp1) as (_ & _ & _ & Sen & _).
        rewrite Hpol in Sen. rewrite Sen.
        exact (one_pol_path_proceeds cfg D E cat q u' Hpol HD Hu Hlen' Hlegs Htouch'
                 q1 q2 s1 Hq12 Hp1).
      * unfold deg_so_far. rewrite Ufs, Ut. exact Hlen'.
      * unfold leaf_accepts. rewrite Uen. cbn [negb].
        apply andb_true_intro. split.
        { apply N.eqb_eq. rewrite Uee, Une, (count_ee_perm _ _ Hfq). exact Hcnt. }
        apply andb_true_intro. split.
        { apply N.eqb_eq. unfold ee_so_far in Uee |- *. rewrite Uee, Pe', Un. lia. }
        apply forallb_forall. intros r Hr. unfold range_incl in Hr. apply in_seq in Hr.
        apply N.eqb_eq. rewrite (Upc Hpol), Htouch' by lia. reflexivity.
      * unfold u in HL'. rewrite HL in HL'. injection HL' as <-.
        destruct (insert_leaves_has L [] u' Hin) as (t' & Ht' & Hft').
        rewrite <- Hout in Ht'.
        replace (mkTS (sort fs) E) with t'; [exact Ht'|].
        apply TensorStructure_ext.
        -- rewrite Hft'. simpl. rewrite Ufs. apply sort_perm_eq, Hfq.
        -- simpl. exact (proj2 (generate_member_ee _ _ _ _ _ Hg Ht')).
Qed.

Lemma generate_one_pol_exact_witness :
  pol_pattern cfg4 = OnePerLeg /\ (3 <> 0)%N /\
  generate_tensor_structures cfg4 3 1 = Some out_4_3_1 /\
  (In ts_4_3_1 out_4_3_1 <->
   exists pp pe ee fs,
     generate_valid_factors cfg4 = Some (pp, pe, ee) /\ incl fs (pp ++ pe ++ ee) /\
     N.of_nat (length fs) = 3%N /\ N.of_nat (count_ee fs) = 1%N /\
     (forall r, 1 <= r <= n_legs cfg4 -> touches r fs = 1) /\ ts_4_3_1 = mkTS (sort fs) 1).
Proof.
  assert (Hg : generate_tensor_structures cfg4 3 1 = Some out_4_3_1)
    by (vm_compute; reflexivity).
  split; [reflexivity|]. split; [discriminate|]. split; [exact Hg|].
  exact (generate_one_pol_exact cfg4 3 1 _ _ eq_refl ltac:(discriminate) Hg).
Defined.

(** [impl Ord for ScalarFactor] is a total order consistent with the
    derived equality: [Equal] exactly on equal factors, [a.cmp(b)] is the
    reverse of [b.cmp(a)], and [Less] is transitive. *)
Theorem ScalarFactor_cmp_total_order (x y z : ScalarFactor) :
  (cmp x y = Eq <-> x = y) /\ cmp y x = CompOpp (cmp x y) /\
  (cmp x y = Lt -> cmp y z = Lt -> cmp x z = Lt).
Proof.
  split; [apply cmp_eq_iff|]. split; [apply cmp_antisym|]. apply cmp_lt_trans.
Qed.

(** [impl Ord for TensorStructure] compares the factor sequences only: two
    structures compare [Equal] exactly when their factor lists are equal,
    whatever their [ee_contractions], so the order disagrees with the
    derived [PartialEq] on structures that differ only in that field. It is
    otherwise a total order. *)
Theorem TensorStructure_cmp_factors_only (t u v : TensorStructure) :
  (cmp t u = Eq <-> factors t = factors u) /\ cmp u t = CompOpp (cmp t u) /\
  (cmp t u = Lt -> cmp u v = Lt -> cmp t v = Lt).
Proof.
  split; [apply ts_cmp_eq_iff|]. split; [apply ts_cmp_antisym|]. apply ts_cmp_lt_trans.
Qed.

(** ** The printed forms *)

Lemma append_split p d1 d2 r1 r2 :
  all_chars p d1 = true -> all_chars p d2 = true ->
  starts_outside p r1 = true -> starts_outside p r2 = true ->
  String.append d1 r1 = String.append d2 r2 -> d1 = d2 /\ r1 = r2.
Proof.
  revert d2; induction d1 as [|c1 d1 IH]; intros [|c2 d2]; simpl;
    intros H1 H2 R1 R2 E.
  - auto.
  - subst r1. simpl in R1. apply andb_prop in H2 as [H2 _]. rewrite H2 in R1. discriminate.
  - subst r2. simpl in R2. apply andb_prop in H1 as [H1 _]. rewrite H1 in R2. discriminate.
  - injection E as <- E. apply andb_prop in H1 as [_ H1]. apply andb_prop in H2 as [_ H2].
    destruct (IH d2 H1 H2 R1 R2 E) as [-> ->]. auto.
Qed.

Lemma all_chars_append p s1 s2 :
  all_chars p (String.append s1 s2) = all_chars p s1 && all_chars p s2.
Proof. induction s1 as [|c s1 IH]; simpl; [reflexivity|]. rewrite IH, andb_assoc. reflexivity. Qed.

Lemma all_chars_impl (p p' : Ascii.ascii -> bool) s :
  (forall c, p c = true -> p' c = true) -> all_chars p s = true -> all_chars p' s = true.
Proof.
  intros Hp. induction s as [|c s IH]; simpl; [reflexivity|].
  intros H. apply andb_prop in H as [H1 H2]. rewrite (Hp c H1), (IH H2). reflexivity.
Qed.

Lemma digit_char k : k < 10 -> Ascii.nat_of_ascii (Ascii.ascii_of_nat (48 + k)) = 48 + k.
Proof. intros Hk. apply Ascii.nat_ascii_embedding. lia. Qed.

Lemma dec_aux_digits fuel : forall n acc,
  all_chars is_digit acc = true -> all_chars is_digit (dec_aux fuel n acc) = true.
Proof.
  induction fuel as [|fuel IH]; intros n acc Hacc; cbn [dec_aux]; [exact Hacc|].
  destruct (Nat.ltb_spec n 10).
  - cbn [all_chars]. rewrite Hacc. unfold is_digit. rewrite digit_char by lia.
    nat_bool_cases; cbn [andb]; lia || reflexivity.
  - apply IH. cbn [all_chars]. rewrite Hacc. unfold is_digit.
    pose proof (Nat.mod_upper_bound n 10 ltac:(lia)).
    rewrite digit_char by lia. nat_bool_cases; cbn [andb]; lia || reflexivity.
Qed.

Lemma dec_digits n : all_chars is_digit (dec n) = true.
Proof. apply dec_aux_digits. reflexivity. Qed.

Lemma dec_aux_value fuel : forall n acc,
  n < fuel ->
  str_value (dec_aux fuel n acc) = n * 10 ^ String.length acc + str_value acc.
Proof.
  induction fuel as [|fuel IH]; intros n acc Hn; [lia|]. cbn [dec_aux].
  destruct (Nat.ltb_spec n 10).
  - cbn [str_value]. rewrite digit_char by lia. replace (48 + n - 48) with n by lia.
    reflexivity.
  - rewrite IH.
    + cbn [str_value String.length]. pose proof (Nat.mod_upper_bound n 10 ltac:(lia)).
      rewrite digit_char by lia. replace (48 + n mod 10 - 48) with (n mod 10) by lia.
      pose proof (Nat.div_mod n 10 ltac:(lia)).
      rewrite Nat.pow_succ_r'.
      remember (10 ^ String.length acc) as P. remember (str_value acc) as V.
      remember (n / 10) as Q. remember (n mod 10) as R. nia.
    + pose proof (Nat.div_lt n 10). lia.
Qed.

Lemma dec_value n : str_value (dec n) = n.
Proof. unfold dec. rewrite dec_aux_value by lia. simpl. lia. Qed.

Lemma dec_inj n m : dec n = dec m -> n = m.
Proof. intros H. rewrite <- (dec_value n), <- (dec_value m), H. reflexivity. Qed.

Lemma sf_to_string_shape k x y :
  ScalarFactor_to_string (mkSF k x y) =
  String.String (Ascii.ascii_of_nat 40)
    (String.String (Ascii.ascii_of_nat (match k with EE => 101 | _ => 112 end))
      (String.append (dec x)
        (String.String (Ascii.ascii_of_nat 194) (String.String (Ascii.ascii_of_nat 183)
          (String.String (Ascii.ascii_of_nat (match k with PP => 112 | _ => 101 end))
            (String.append (dec y)
              (String.String (Ascii.ascii_of_nat 41) String.EmptyString))))))).
Proof. destruct k; reflexivity. Qed.

Lemma sf_to_string_inj f g : ScalarFactor_to_string f = ScalarFactor_to_string g -> f = g.
Proof.
  destruct f as [k1 a1 b1], g as [k2 a2 b2]. rewrite !sf_to_string_shape.
  intros H. injection H as Hc1 H.
  apply (append_split is_digit) in H as [Ha H];
    [|apply dec_digits|apply dec_digits|reflexivity|reflexivity].
  injection H as Hc2 H.
  apply (append_split is_digit) in H as [Hb _];
    [|apply dec_digits|apply dec_digits|reflexivity|reflexivity].
  apply dec_inj in Ha, Hb. subst.
  destruct k1, k2; try reflexivity; vm_compute in Hc1, Hc2; discriminate.
Qed.

Lemma sf_to_string_not_space f : all_chars not_space (ScalarFactor_to_string f) = true.
Proof.
  destruct f as [k x y]. rewrite sf_to_string_shape. cbn [all_chars].
  rewrite all_chars_append. cbn [all_chars]. rewrite all_chars_append. cbn [all_chars].
  assert (Hd : forall n, all_chars not_space (dec n) = true).
  { intros n. apply (all_chars_impl is_digit); [|apply dec_digits].
    intros c Hc. unfold is_digit in Hc. unfold not_space.
    apply andb_prop in Hc as [H1 H2]. apply Nat.leb_le in H1.
    destruct (Nat.eqb_spec (Ascii.nat_of_ascii c) 32); [lia|reflexivity]. }
  rewrite !Hd. destruct k; reflexivity.
Qed.

Lemma append_empty_r s : String.append s String.EmptyString = s.
Proof. induction s as [|c s IH]; simpl; [reflexivity|]. rewrite IH. reflexivity. Qed.

Lemma append_cancel_l s t u : String.append s t = String.append s u -> t = u.
Proof. induction s as [|c s IH]; simpl; [auto|]. intros H. injection H. auto. Qed.

Lemma join_cons sep x l :
  join sep (x :: l) =
  String.append x (match l with [] => String.EmptyString | _ => String.append sep (join sep l) end).
Proof. destruct l; cbn [join]; [symmetry; apply append_empty_r|reflexivity]. Qed.

Lemma join_sf_inj fs gs :
  join ts_separator (map ScalarFactor_to_string fs) =
  join ts_separator (map ScalarFactor_to_string gs) -> fs = gs.
Proof.
  revert gs; induction fs as [|f fs IH]; intros [|g gs]; cbn [map]; intros H.
  - reflexivity.
  - exfalso. rewrite join_cons in H. destruct g as [k x y].
    rewrite sf_to_string_shape in H. discriminate.
  - exfalso. rewrite join_cons in H. destruct f as [k x y].
    rewrite sf_to_string_shape in H. discriminate.
  - rewrite !join_cons in H.
    apply (append_split not_space) in H as [Hfg Hr];
      [|apply sf_to_string_not_space|apply sf_to_string_not_space
       |destruct fs; reflexivity|destruct gs; reflexivity].
    apply sf_to_string_inj in Hfg. subst g. f_equal.
    destruct fs as [|f1 fs], gs as [|g1 gs].
    + reflexivity.
    + discriminate.
    + discriminate.
    + apply append_cancel_l in Hr. apply IH. exact Hr.
Qed.

(** [ScalarFactor::to_string] is injective: two scalar factors print the same
    string exactly when they are equal, so the printed form determines the
    kind and both leg numbers. *)
Theorem ScalarFactor_to_string_inj_iff f g :
  ScalarFactor_to_string f = ScalarFactor_to_string g <-> f = g.
Proof. split; [apply sf_to_string_inj|intros ->; reflexivity]. Qed.

(** [TensorStructure::to_string] determines the factor list: two tensor
    structures print the same string exactly when their factor lists are
    equal (the EE count is not printed; the empty list prints as 1, which no
    non-empty list prints). *)
Theorem TensorStructure_to_string_inj_iff t u :
  TensorStructure_to_string t = TensorStructure_to_string u <-> factors t = factors u.
Proof.
  split; [|unfold TensorStructure_to_string; intros ->; reflexivity].
  unfold TensorStructure_to_string.
  destruct (factors t) as [|f fs], (factors u) as [|g gs]; cbn [map]; intros H.
  - reflexivity.
  - exfalso. rewrite join_cons in H. destruct g as [k x y].
    rewrite sf_to_string_shape in H. cbn in H. discriminate.
  - exfalso. rewrite join_cons in H. destruct f as [k x y].
    rewrite sf_to_string_shape in H. cbn in H. discriminate.
  - exact (join_sf_inj (f :: fs) (g :: gs) H).
Qed.
